(** * fallback-chain-lib: the fallback chain of [src/fallback-chain.ts]

    A shallow embedding of the [FallbackChain] class and of the platform
    operations it calls ([Array.prototype.sort], [Array.prototype.filter],
    [Promise.race], [setTimeout], [EventEmitter.emit]), followed by the
    properties of the execution engine, of the registration operations and
    of the constructor.

    Modelling scope.
    - An [async] method is a computation that appends to a log of observable
      actions and completes normally, by an exception, or never (it awaits a
      promise that never settles).
    - A promise is described by when it settles and how.  Time is counted in
      milliseconds from the moment the promise is created.
    - The class extends Node's [EventEmitter]: the chain carries the
      listeners registered with [on], and [emit] of an ['error'] event that
      has no listener throws, as the emitter does.  The listeners
      themselves and the [onFallback] callback are code of the caller:
      they are taken to return normally.
    - A provider is described as one call meets it: what its probe answers
      and what its operation does in the call under study.  Nothing relates
      the answers that two calls get.
    - The provider list does not change while one [execute] call runs. *)

From stdpp Require Import base numbers list strings sorting gmap fin_maps.

Local Open Scope Z_scope.

(** ** Platform values *)

(** An [Error] object: one made with a message, or the error that Node's
    emitter makes when an ['error'] event has no listener
    ([ERR_UNHANDLED_ERROR]), known by the payload of the event, which it
    keeps as its [context]: here always [{ name, error }]. *)
Inductive Error : Type :=
| mkError (message : string)
| ERR_UNHANDLED_ERROR (name : string) (error : Error).

(** What a [throw] or a rejection carries: an [Error] instance, or any other
    value, kept as the string [String(value)] that the engine reads. *)
Inductive thrown : Type :=
| ThrowError (e : Error)
| ThrowOther (str : string).

(** [error instanceof Error ? error : new Error(String(error))] *)
Definition asError (error : thrown) : Error :=
  match error with
  | ThrowError e => e
  | ThrowOther str => mkError str
  end.

(** A JavaScript number as the options use it: an integer or [NaN]. *)
Inductive number : Type :=
| Num (z : Z)
| NaN.

Definition truthy (n : number) : bool :=
  match n with
  | Num z => negb (bool_decide (z = 0))
  | NaN => false
  end.

(** [a || b] where [a] may be [undefined] *)
Definition js_or (a : option number) (b : number) : number :=
  match a with
  | Some n => if truthy n then n else b
  | None => b
  end.

(** [a ?? b] *)
Definition js_nullish {A : Type} (a : option A) (b : A) : A :=
  match a with
  | Some v => v
  | None => b
  end.

(** ** Promises *)

Inductive settled (A : Type) : Type :=
| Fulfilled (v : A)
| Rejected (x : thrown).
Arguments Fulfilled {A} v.
Arguments Rejected {A} x.

Inductive promise (A : Type) : Type :=
| SettlesAt (t : Z) (s : settled A)
| Pending.
Arguments SettlesAt {A} t s.
Arguments Pending {A}.

(** The member that settles first decides; of two members settling at the
    same instant the one listed first does. *)
Definition race2 {A : Type} (p q : promise A) : promise A :=
  match p, q with
  | SettlesAt t _, SettlesAt u _ => if bool_decide (t ≤ u) then p else q
  | SettlesAt _ _, Pending => p
  | Pending, _ => q
  end.

Definition Promise_race {A : Type} (ps : list (promise A)) : promise A :=
  foldr race2 Pending ps.

(** The instant at which Node runs a callback registered with
    [setTimeout(cb, delay)]: a delay outside [1 .. 2^31-1] (or [NaN]) is
    replaced by 1. *)
Definition setTimeout (delay : number) : Z :=
  match delay with
  | Num d => if bool_decide (1 ≤ d ≤ 2147483647) then d else 1
  | NaN => 1
  end.

(** ** [Array.prototype.sort] with a comparator

    The sort is stable (ECMAScript 2019): an element moves in front of
    another only when the comparator says it is strictly smaller. *)
Fixpoint sort_insert {A : Type} (cmp : A → A → Z) (x : A) (l : list A) : list A :=
  match l with
  | [] => [x]
  | y :: l' =>
      if bool_decide (cmp x y ≤ 0) then x :: y :: l'
      else y :: sort_insert cmp x l'
  end.

Definition Array_sort {A : Type} (cmp : A → A → Z) (l : list A) : list A :=
  foldr (sort_insert cmp) [] l.

(** ** The data model *)

(** [interface Chainable], as one call of a method of the chain meets the
    provider.  [priority] is an integer.  [healthCheck] takes no argument:
    the field holds the promise that the probe returns when that call
    calls it; nothing is said of what it returns to another call. *)
Record Chainable (Req Res : Type) : Type := mkChainable {
  name : string;
  priority : Z;
  execute : option (Req → promise Res);
  healthCheck : option (promise bool)
}.
Arguments mkChainable {Req Res} name priority execute healthCheck.
Arguments name {Req Res} c.
Arguments priority {Req Res} c.
Arguments execute {Req Res} c.
Arguments healthCheck {Req Res} c.

(** A callback supplied by the caller, or the default [() => {}]. *)
Inductive Callback : Type :=
| UserCallback (id : nat)
| NoOp.

(** [interface FallbackChainOptions]: every field may be left out. *)
Module FallbackChainOptions.
Record t : Type := mk {
  timeoutPerItem : option number;
  continueOnError : option bool;
  onFallback : option Callback
}.
End FallbackChainOptions.

(** ** The log of observable actions *)

Inductive Event : Type :=
| EvSkipped (name reason : string)
| EvSuccess (name : string) (index : nat)
| EvError (name : string) (error : Error)
| EvFallback (from to : string).

(** What the engine does: it calls a probe, calls an operation, calls
    [this.emit] with an event, calls [onFallback]. *)
Inductive Action : Type :=
| CallHealthCheck
| CallExecute
| Emit (e : Event)
| CallOnFallback (cb : Callback) (from to : string).

(** Every entry carries the index [i] of the loop iteration that made it. *)
Definition entry : Type := nat * Action.

Global Instance Error_eq_dec : EqDecision Error.
Proof. solve_decision. Defined.
Global Instance thrown_eq_dec : EqDecision thrown.
Proof. solve_decision. Defined.
Global Instance Callback_eq_dec : EqDecision Callback.
Proof. solve_decision. Defined.
Global Instance Event_eq_dec : EqDecision Event.
Proof. solve_decision. Defined.
Global Instance Action_eq_dec : EqDecision Action.
Proof. solve_decision. Defined.

(** ** Computations *)

Inductive completion (A : Type) : Type :=
| Normal (a : A)
| Throws (x : thrown)
| Never.
Arguments Normal {A} a.
Arguments Throws {A} x.
Arguments Never {A}.

Definition Run (A : Type) : Type := list entry * completion A.

Global Instance Run_ret : MRet Run := λ A a, ([], Normal a).

Global Instance Run_bind : MBind Run := λ A B k m,
  match m with
  | (w, Normal a) => let '(w', c) := k a in (w ++ w', c)
  | (w, Throws x) => (w, Throws x)
  | (w, Never) => (w, Never)
  end.

Definition throw {A : Type} (x : thrown) : Run A := ([], Throws x).

(** [try { m } catch (error) { h error }] *)
Definition try_catch {A : Type} (m : Run A) (h : thrown → Run A) : Run A :=
  match m with
  | (w, Throws x) => let '(w', c) := h x in (w ++ w', c)
  | _ => m
  end.

(** [await p] *)
Definition await {A : Type} (p : promise A) : Run A :=
  match p with
  | SettlesAt _ (Fulfilled v) => mret v
  | SettlesAt _ (Rejected x) => throw x
  | Pending => ([], Never)
  end.

Definition act (i : nat) (a : Action) : Run unit := ([(i, a)], Normal tt).

(** How one iteration of the [for] loop ends. *)
Inductive iteration (Res : Type) : Type :=
| Continue (lastError : option Error)
| Return (result : Res).
Arguments Continue {Res} lastError.
Arguments Return {Res} result.

(** ** [class FallbackChain] *)

Module FallbackChain.

(** [Required<FallbackChainOptions>] *)
Record Options : Type := mkOptions {
  timeoutPerItem : number;
  continueOnError : bool;
  onFallback : Callback
}.

(** The object: the two fields of the class, and the listeners that the
    [EventEmitter] it extends holds, as pairs of an event name and a
    listener in the order of their registration. *)
Record t (Req Res : Type) : Type := mk {
  items : list (Chainable Req Res);
  options : Options;
  listeners : list (string * Callback)
}.
Arguments mk {Req Res} items options listeners.
Arguments items {Req Res} _.
Arguments options {Req Res} _.
Arguments listeners {Req Res} _.

Section Methods.
Context {Req Res : Type}.

(** [constructor(options = {})] *)
Definition constructor (o : FallbackChainOptions.t) : t Req Res :=
  mk []
     {| timeoutPerItem := js_or (FallbackChainOptions.timeoutPerItem o) (Num 30000);
        continueOnError := js_nullish (FallbackChainOptions.continueOnError o) true;
        onFallback :=
          match FallbackChainOptions.onFallback o with
          | Some cb => cb
          | None => NoOp
          end |}
     [].

(** [add(item)]: push, then sort by [a.priority - b.priority]. *)
Definition add (c : t Req Res) (item : Chainable Req Res) : t Req Res :=
  mk (Array_sort (λ a b, priority a - priority b) (items c ++ [item]))
     (options c) (listeners c).

(** [remove(name)] *)
Definition remove (c : t Req Res) (n : string) : t Req Res :=
  mk (filter (λ item, name item ≠ n) (items c)) (options c) (listeners c).

(** [getItems()], as the sequence of entries it holds. *)
Definition getItems (c : t Req Res) : list (Chainable Req Res) :=
  items c.

(** [get(name)] *)
Definition get (c : t Req Res) (n : string) : option (Chainable Req Res) :=
  snd <$> list_find (λ item, name item = n) (items c).

(** [get length()] *)
Definition length (c : t Req Res) : nat := List.length (items c).

(** [on(event, listener)], inherited from [EventEmitter] *)
Definition on (c : t Req Res) (event : string) (listener : Callback)
    : t Req Res :=
  mk (items c) (options c) (listeners c ++ [(event, listener)]).

(** [listenerCount(event)], inherited from [EventEmitter] *)
Definition listenerCount (c : t Req Res) (event : string) : nat :=
  List.length (filter (λ r : string * Callback, r.1 = event) (listeners c)).

(** [emit(event, payload)], inherited from [EventEmitter], made in
    iteration [i].  An ['error'] event that has no listener is thrown: its
    payload is not an [Error], so what is thrown is the emitter's own
    error, which holds the payload.  In every other case the listeners of
    the event, if any, are called and [emit] returns. *)
Definition emit (c : t Req Res) (i : nat) (e : Event) : Run unit :=
  act i (Emit e) ;;
  match e with
  | EvError n error =>
      if bool_decide (listenerCount c "error" = 0%nat)
      then throw (ThrowError (ERR_UNHANDLED_ERROR n error))
      else mret tt
  | _ => mret tt
  end.

(** [executeWithTimeout(fn, request)] *)
Definition executeWithTimeout (c : t Req Res)
    (fn : Req → promise Res) (request : Req) : promise Res :=
  Promise_race
    [ fn request;
      SettlesAt (setTimeout (timeoutPerItem (options c)))
                (Rejected (ThrowError (mkError "Timeout"))) ].

(** The body of the [for] loop of [execute] at index [i], where
    [item = this.items[i]]. *)
Definition body (c : t Req Res) (request : Req) (i : nat)
    (item : Chainable Req Res) (lastError : option Error)
    : Run (iteration Res) :=
  skip ← match healthCheck item with
         | Some probe =>
             act i CallHealthCheck ;;
             healthy ← await probe;
             if negb healthy
             then emit c i (EvSkipped (name item) "unhealthy") ;;
                  mret true
             else mret false
         | None => mret false
         end;
  if (skip : bool) then mret (Continue lastError)
  else
    try_catch
      (match execute item with
       | Some fn =>
           act i CallExecute ;;
           result ← await (executeWithTimeout c fn request);
           emit c i (EvSuccess (name item) i) ;;
           mret (Return result)
       | None => mret (Continue lastError)
       end)
      (λ error,
         let lastError := asError error in
         emit c i (EvError (name item) lastError) ;;
         (if bool_decide (Z.of_nat i < Z.of_nat (List.length (items c)) - 1)
          then
            match items c !! (i + 1)%nat with
            | Some nextItem =>
                act i (CallOnFallback (onFallback (options c))
                                      (name item) (name nextItem)) ;;
                emit c i (EvFallback (name item) (name nextItem))
            | None =>
                throw (ThrowError (mkError
                  "Cannot read properties of undefined (reading 'name')"))
            end
          else mret tt) ;;
         if negb (continueOnError (options c))
         then throw (ThrowError lastError)
         else mret (Continue (Some lastError))).

(** The [for] loop from index [i] on, [rest] being [this.items] from
    [i], and the [throw] that follows it. *)
Fixpoint loop (c : t Req Res) (request : Req) (i : nat)
    (rest : list (Chainable Req Res)) (lastError : option Error)
    : Run Res :=
  match rest with
  | [] =>
      throw (ThrowError
               (match lastError with
                | Some e => e
                | None => mkError "All items in fallback chain failed"
                end))
  | item :: rest' =>
      r ← body c request i item lastError;
      match r with
      | Return result => mret result
      | Continue lastError' => loop c request (S i) rest' lastError'
      end
  end.

(** [execute(request)] *)
Definition execute (c : t Req Res) (request : Req) : Run Res :=
  loop c request 0 (items c) None.

(** [getFirstAvailable()] *)
Fixpoint firstAvailable (i : nat) (l : list (Chainable Req Res))
    : Run (option (Chainable Req Res)) :=
  match l with
  | [] => mret None
  | item :: l' =>
      match healthCheck item with
      | Some probe =>
          act i CallHealthCheck ;;
          healthy ← await probe;
          if (healthy : bool) then mret (Some item)
          else firstAvailable (S i) l'
      | None => mret (Some item)
      end
  end.

Definition getFirstAvailable (c : t Req Res)
    : Run (option (Chainable Req Res)) :=
  firstAvailable 0 (items c).

End Methods.

End FallbackChain.

(** [createFallbackChain(items, options)] *)
Definition createFallbackChain {Req Res : Type}
    (its : list (Chainable Req Res)) (o : FallbackChainOptions.t)
    : FallbackChain.t Req Res :=
  foldl FallbackChain.add (FallbackChain.constructor o) its.

(** ** Reading the log *)

(** The entries that iteration [i] makes for a list of actions. *)
Definition tag (i : nat) (l : list Action) : list entry := pair i <$> l.

(** The actions that iteration [k] left in a log, in order. *)
Definition at_index (k : nat) (log : list entry) : list Action :=
  (filter (λ e : entry, e.1 = k) log).*2.

(** The call of the probe, when the provider has one. *)
Definition probe_actions {Req Res : Type} (item : Chainable Req Res)
    : list Action :=
  match healthCheck item with
  | Some _ => [CallHealthCheck]
  | None => []
  end.

(** The provider is tried: it has no probe, or its probe answers [true]. *)
Definition healthy {Req Res : Type} (item : Chainable Req Res) : Prop :=
  healthCheck item = None ∨
  ∃ t, healthCheck item = Some (SettlesAt t (Fulfilled true)).

(** What the [catch] block does after the ['error'] notification when the
    provider at [i] is not the last one. *)
Definition fallback_actions {Req Res : Type} (c : FallbackChain.t Req Res)
    (i : nat) (item : Chainable Req Res) : list Action :=
  match FallbackChain.items c !! S i with
  | Some nextItem =>
      [CallOnFallback (FallbackChain.onFallback (FallbackChain.options c))
                      (name item) (name nextItem);
       Emit (EvFallback (name item) (name nextItem))]
  | None => []
  end.

(** When an iteration ends the loop, and how the call then completes. *)
Definition stops {Res : Type} (r : completion (iteration Res))
    : option (completion Res) :=
  match r with
  | Normal (Continue _) => None
  | Normal (Return v) => Some (Normal v)
  | Throws x => Some (Throws x)
  | Never => Some Never
  end.

Definition exhausted : Error := mkError "All items in fallback chain failed".
Definition timed_out : Error := mkError "Timeout".

(** The provider [item] with its operation replaced by [fn]. *)
Definition with_execute {Req Res : Type} (item : Chainable Req Res)
    (fn : Req → promise Res) : Chainable Req Res :=
  mkChainable (name item) (priority item) (Some fn) (healthCheck item).

(** An operation that fails at once with the error of the timer. *)
Definition rejects_with_Timeout {Req Res : Type} : Req → promise Res :=
  λ _, SettlesAt 0 (Rejected (ThrowError timed_out)).

(** ** Sequences of registrations *)

Inductive mutation (Req Res : Type) : Type :=
| Add (item : Chainable Req Res)
| Remove (n : string).
Arguments Add {Req Res} item.
Arguments Remove {Req Res} n.

Definition mutate {Req Res : Type} (c : FallbackChain.t Req Res)
    (m : mutation Req Res) : FallbackChain.t Req Res :=
  match m with
  | Add item => FallbackChain.add c item
  | Remove n => FallbackChain.remove c n
  end.

(** The entries that were added and not removed since, in the order in
    which they were added. *)
Definition record_mutation {Req Res : Type} (h : list (Chainable Req Res))
    (m : mutation Req Res) : list (Chainable Req Res) :=
  match m with
  | Add item => h ++ [item]
  | Remove n => filter (λ item, name item ≠ n) h
  end.

Definition insertion_order {Req Res : Type} (ms : list (mutation Req Res))
    : list (Chainable Req Res) :=
  foldl record_mutation [] ms.

Definition ascending {Req Res : Type} (a b : Chainable Req Res) : Prop :=
  priority a ≤ priority b.

(** What the provider list and the record of the registrations have in
    common. *)
Definition listing_of {Req Res : Type} (c : FallbackChain.t Req Res)
    (h : list (Chainable Req Res)) : Prop :=
  StronglySorted ascending (FallbackChain.getItems c) ∧
  FallbackChain.getItems c ≡ₚ h ∧
  ∀ p, filter (λ item, priority item = p) (FallbackChain.getItems c) =
       filter (λ item, priority item = p) h.

(** ** Example providers and chains *)

Module Examples.

Definition resolves (t : Z) (v : string) : option (string → promise string) :=
  Some (λ _, SettlesAt t (Fulfilled v)).

Definition rejects (t : Z) (m : string) : option (string → promise string) :=
  Some (λ _, SettlesAt t (Rejected (ThrowError (mkError m)))).

Definition defaults : FallbackChainOptions.t :=
  FallbackChainOptions.mk None None None.

Definition stop_on_error : FallbackChainOptions.t :=
  FallbackChainOptions.mk None (Some false) None.

Definition A : Chainable string string := mkChainable "A" 2 (resolves 5 "a") None.
Definition B : Chainable string string := mkChainable "B" 1 (rejects 5 "boom") None.
Definition C : Chainable string string :=
  mkChainable "C" 1 (resolves 5 "c") (Some (SettlesAt 1 (Fulfilled false))).
Definition D : Chainable string string := mkChainable "D" 1 (resolves 500 "d") None.
Definition H : Chainable string string :=
  mkChainable "H" 3 (resolves 5 "h") (Some (SettlesAt 1 (Rejected (ThrowOther "down")))).

(** The chain with one listener registered for the ['error'] event. *)
Definition listening (c : FallbackChain.t string string)
    : FallbackChain.t string string :=
  FallbackChain.on c "error" (UserCallback 0).

(** [B] fails, then [A] succeeds; the caller listens to ['error']. *)
Definition chain_BA : FallbackChain.t string string :=
  listening (createFallbackChain [A; B] defaults).

(** The same providers on a chain that nobody listens to, as in the
    usage that the README shows. *)
Definition chain_BA_silent : FallbackChain.t string string :=
  createFallbackChain [A; B] defaults.

(** The same providers, stopping at the first failure. *)
Definition chain_BA_stop : FallbackChain.t string string :=
  listening (createFallbackChain [A; B] stop_on_error).

Definition chain_BA_stop_silent : FallbackChain.t string string :=
  createFallbackChain [A; B] stop_on_error.

(** [B] alone, on a chain that nobody listens to. *)
Definition chain_B_silent : FallbackChain.t string string :=
  createFallbackChain [B] defaults.

Definition C_after : Chainable string string :=
  mkChainable "C" 2 (resolves 5 "c") (Some (SettlesAt 1 (Fulfilled false))).

(** [B] fails, then the provider after it is unhealthy. *)
Definition chain_BC : FallbackChain.t string string :=
  listening (createFallbackChain [B; C_after] defaults).

(** [C] is unhealthy, then [A] succeeds. *)
Definition chain_CA : FallbackChain.t string string :=
  createFallbackChain [A; C] defaults.

(** [D] needs 500 ms and is given 100 ms. *)
Definition chain_D : FallbackChain.t string string :=
  listening
    (createFallbackChain [D] (FallbackChainOptions.mk (Some (Num 100)) None None)).

(** [D] is given 100 ms, then [A] succeeds. *)
Definition chain_DA : FallbackChain.t string string :=
  listening
    (createFallbackChain [A; D] (FallbackChainOptions.mk (Some (Num 100)) None None)).

Definition chain_DA_silent : FallbackChain.t string string :=
  createFallbackChain [A; D] (FallbackChainOptions.mk (Some (Num 100)) None None).

(** The probe of [H] rejects. *)
Definition chain_H : FallbackChain.t string string :=
  createFallbackChain [H] defaults.

(** The probe of a provider that stands first rejects, then [A] would
    succeed. *)
Definition H_first : Chainable string string :=
  mkChainable "H" 1 (resolves 5 "h") (Some (SettlesAt 1 (Rejected (ThrowOther "down")))).

Definition chain_HA : FallbackChain.t string string :=
  createFallbackChain [A; H_first] defaults.

(** [B] fails, then the probe of [H] rejects. *)
Definition chain_BH : FallbackChain.t string string :=
  listening (createFallbackChain [B; H] defaults).

End Examples.

(** Two providers that the engine cannot tell apart: the same name, the
    same probe, and operations whose race against the timer is awaited with
    the same result. *)
Definition same_attempt {Req Res : Type} (c c' : FallbackChain.t Req Res)
    (request : Req) (item item' : Chainable Req Res) : Prop :=
  name item = name item' ∧
  healthCheck item = healthCheck item' ∧
  match execute item, execute item' with
  | Some fn, Some fn' =>
      await (FallbackChain.executeWithTimeout c fn request) =
      await (FallbackChain.executeWithTimeout c' fn' request)
  | None, None => True
  | _, _ => False
  end.

(** ** The chain in the heap

    The class keeps its providers in a JavaScript array: a mutable object
    that holds references to the provider objects.  Here an array is a
    location of the heap whose content is a list of provider locations, and
    the methods that read or change [this.items] are restated on it. *)

Module Heap.

Definition loc : Type := nat.

Record heap (Req Res : Type) : Type := mkHeap {
  arrays : gmap loc (list loc);
  objects : gmap loc (Chainable Req Res)
}.
Arguments mkHeap {Req Res} arrays objects.
Arguments arrays {Req Res} _.
Arguments objects {Req Res} _.

(** A [FallbackChain] object: [this.items] is a reference to an array. *)
Record chain : Type := mkChain {
  items : loc;
  options : FallbackChain.Options;
  listeners : list (string * Callback)
}.

Section Store.
Context {Req Res : Type}.
Implicit Types (h : heap Req Res) (c : chain).

Definition read_array h (a : loc) : list loc := default [] (arrays h !! a).

(** Any change made in place to the array at [a] ([push], [pop], [sort],
    [splice], an assignment to an index or to [length]) leaves it with
    some new content [l]. *)
Definition write_array (a : loc) (l : list loc) h : heap Req Res :=
  mkHeap (<[a := l]> (arrays h)) (objects h).

(** An assignment to the fields of the provider object at [o]. *)
Definition write_object (o : loc) (v : Chainable Req Res) h : heap Req Res :=
  mkHeap (arrays h) (<[o := v]> (objects h)).

(** A new array with content [l]. *)
Definition alloc_array (l : list loc) h : loc * heap Req Res :=
  let a := fresh (dom (arrays h)) in (a, write_array a l h).

Definition deref h (o : loc) : Chainable Req Res :=
  default (mkChainable "" 0 None None) (objects h !! o).

(** [add(item)]: [this.items.push(item); this.items.sort(...)], both in
    place. *)
Definition add c (item : loc) h : heap Req Res :=
  write_array (items c)
    (Array_sort (λ a b, priority (deref h a) - priority (deref h b))
                (read_array h (items c) ++ [item]))
    h.

(** [remove(name)]: [this.items = this.items.filter(...)], a new array. *)
Definition remove c (n : string) h : chain * heap Req Res :=
  let '(a, h') :=
    alloc_array (filter (λ o, name (deref h o) ≠ n) (read_array h (items c))) h in
  (mkChain a (options c) (listeners c), h').

(** [getItems()]: [[...this.items]], a new array with the same entries. *)
Definition getItems c h : loc * heap Req Res :=
  alloc_array (read_array h (items c)) h.

(** The providers of the chain in order, and the chain as the methods of
    [FallbackChain] see it. *)
Definition providers c h : list (Chainable Req Res) :=
  deref h <$> read_array h (items c).

Definition view c h : FallbackChain.t Req Res :=
  FallbackChain.mk (providers c h) (options c) (listeners c).

(** The caller changes the array at [a] any number of times. *)
Definition write_array_many (a : loc) (ls : list (list loc)) h : heap Req Res :=
  foldl (λ h' l, write_array a l h') h ls.

End Store.

End Heap.

Module HeapExamples.

(** A chain that holds [B] (object 10) and [A] (object 11) in the array at
    location 0. *)
Definition h0 : Heap.heap string string :=
  Heap.mkHeap {[ 0%nat := [10%nat; 11%nat] ]}
              {[ 10%nat := Examples.B; 11%nat := Examples.A ]}.

Definition chain0 : Heap.chain :=
  Heap.mkChain 0%nat
    (FallbackChain.options
       (@FallbackChain.constructor string string Examples.defaults))
    [].

End HeapExamples.

Module Scenarios.

(** A chain with the single provider [C], whose probe answers [false]. *)
Definition chain_C : FallbackChain.t string string :=
  createFallbackChain [Examples.C] Examples.defaults.

(** [D] needs 500 ms; the chain is made with [timeoutPerItem: 0]. *)
Definition chain_D_zero : FallbackChain.t string string :=
  createFallbackChain [Examples.D]
    (FallbackChainOptions.mk (Some (Num 0)) None None).

(** Five providers added in the order [A], [B], [C], [D], [H]. *)
Definition chain_all : FallbackChain.t string string :=
  createFallbackChain
    [Examples.A; Examples.B; Examples.C; Examples.D; Examples.H]
    Examples.defaults.

End Scenarios.

(** ** Further definitions for the properties of the code *)

(** What iteration [k] of a call left in the log [log] of a call that
    completed as [comp], by the way the iteration went. *)
Inductive iteration_log {Req Res : Type} (c : FallbackChain.t Req Res)
    (request : Req) (k : nat) (item : Chainable Req Res)
    (log : list entry) (comp : completion Res) : Prop :=
| LogProbeRejects t x :
    healthCheck item = Some (SettlesAt t (Rejected x)) →
    at_index k log = [CallHealthCheck] →
    comp = Throws x →
    (∀ j b, (j, b) ∈ log → (j ≤ k)%nat) →
    iteration_log c request k item log comp
| LogProbePending :
    healthCheck item = Some Pending →
    at_index k log = [CallHealthCheck] →
    comp = Never →
    (∀ j b, (j, b) ∈ log → (j ≤ k)%nat) →
    iteration_log c request k item log comp
| LogUnhealthy t :
    healthCheck item = Some (SettlesAt t (Fulfilled false)) →
    at_index k log = [CallHealthCheck; Emit (EvSkipped (name item) "unhealthy")] →
    iteration_log c request k item log comp
| LogInert :
    healthy item → execute item = None →
    at_index k log = probe_actions item →
    iteration_log c request k item log comp
| LogSucceeds fn t v :
    healthy item → execute item = Some fn →
    FallbackChain.executeWithTimeout c fn request = SettlesAt t (Fulfilled v) →
    at_index k log =
      probe_actions item ++ [CallExecute; Emit (EvSuccess (name item) k)] →
    comp = Normal v →
    (∀ j b, (j, b) ∈ log → (j ≤ k)%nat) →
    iteration_log c request k item log comp
| LogFails fn t x :
    healthy item → execute item = Some fn →
    FallbackChain.executeWithTimeout c fn request = SettlesAt t (Rejected x) →
    at_index k log =
      probe_actions item ++
      [CallExecute; Emit (EvError (name item) (asError x))] ++
      (if bool_decide (FallbackChain.listenerCount c "error" = 0%nat)
       then [] else fallback_actions c k item) →
    (FallbackChain.listenerCount c "error" = 0%nat →
     comp = Throws (ThrowError (ERR_UNHANDLED_ERROR (name item) (asError x))) ∧
     ∀ j b, (j, b) ∈ log → (j ≤ k)%nat) →
    (FallbackChain.listenerCount c "error" ≠ 0%nat →
     FallbackChain.continueOnError (FallbackChain.options c) = false →
     comp = Throws (ThrowError (asError x)) ∧
     ∀ j b, (j, b) ∈ log → (j ≤ k)%nat) →
    iteration_log c request k item log comp.

(** The loop passes over the provider without calling its operation: its
    probe answers [false], or it is tried and has no operation. *)
Definition passed_over {Req Res : Type} (item : Chainable Req Res) : bool :=
  match healthCheck item with
  | Some (SettlesAt _ (Fulfilled false)) => true
  | Some (SettlesAt _ (Fulfilled true)) | None =>
      match execute item with
      | Some _ => false
      | None => true
      end
  | Some (SettlesAt _ (Rejected _)) | Some Pending => false
  end.

(** The operation [fn] is fulfilled in time: no later than the instant at
    which a timer set to [timeoutPerItem] fires.  The value is the one it
    is fulfilled with. *)
Definition in_time {Req Res : Type} (c : FallbackChain.t Req Res)
    (fn : Req → promise Res) (request : Req) : option Res :=
  match fn request with
  | SettlesAt t (Fulfilled v) =>
      if bool_decide
           (t ≤ setTimeout (FallbackChain.timeoutPerItem (FallbackChain.options c)))
      then Some v else None
  | SettlesAt _ (Rejected _) | Pending => None
  end.

(** The loop goes on after the provider, read off the provider and the
    chain: its probe answers [false]; or it is tried and has no operation;
    or it is tried, its operation is not fulfilled in time (it rejects, or
    the timer fires first), the chain continues on error and somebody
    listens to the ['error'] event. *)
Definition moves_on {Req Res : Type} (c : FallbackChain.t Req Res)
    (request : Req) (item : Chainable Req Res) : bool :=
  match healthCheck item with
  | Some (SettlesAt _ (Fulfilled false)) => true
  | Some (SettlesAt _ (Fulfilled true)) | None =>
      match execute item with
      | None => true
      | Some fn =>
          match in_time c fn request with
          | Some _ => false
          | None =>
              FallbackChain.continueOnError (FallbackChain.options c) &&
              negb (bool_decide (FallbackChain.listenerCount c "error" = 0%nat))
          end
      end
  | Some (SettlesAt _ (Rejected _)) | Some Pending => false
  end.

(** The probe of the provider answers [false]. *)
Definition unhealthy {Req Res : Type} (item : Chainable Req Res) : Prop :=
  ∃ t, healthCheck item = Some (SettlesAt t (Fulfilled false)).

(** Every provider that stands before index [k] in [l] is unhealthy. *)
Definition unhealthy_before {Req Res : Type} (k : nat)
    (l : list (Chainable Req Res)) : Prop :=
  ∀ j item, (j < k)%nat → l !! j = Some item → unhealthy item.

(** A registration made on the chain in the heap, and what it does to the
    chain object and the heap. *)
Inductive heap_mutation : Type :=
| HAdd (o : Heap.loc)
| HRemove (n : string).

Definition heap_mutate {Req Res : Type}
    (s : Heap.chain * Heap.heap Req Res) (m : heap_mutation)
    : Heap.chain * Heap.heap Req Res :=
  match m with
  | HAdd o => (s.1, Heap.add s.1 o s.2)
  | HRemove n => Heap.remove s.1 n s.2
  end.

(** * Properties *)

(** ** The log *)

Lemma at_index_app k l1 l2 : at_index k (l1 ++ l2) = at_index k l1 ++ at_index k l2.
Proof. unfold at_index. by rewrite filter_app, fmap_app. Qed.

Lemma at_index_tag_eq k l : at_index k (tag k l) = l.
Proof.
  unfold at_index, tag. induction l as [|a l IH]; [done|].
  rewrite fmap_cons, filter_cons_True by done. simpl. by f_equal.
Qed.

Lemma at_index_tag_ne k i l : i ≠ k → at_index k (tag i l) = [].
Proof.
  intros Hne. unfold at_index, tag. induction l as [|a l IH]; [done|].
  rewrite fmap_cons, filter_cons_False by (simpl; congruence). done.
Qed.

Lemma at_index_absent k log :
  (∀ j a, (j, a) ∈ log → j ≠ k) → at_index k log = [].
Proof.
  intros H. unfold at_index. induction log as [|[j a] log IH]; [done|].
  rewrite filter_cons_False.
  - apply IH. intros j' a' Hin. apply (H j' a'). by right.
  - simpl. apply (H j a). by left.
Qed.

Lemma elem_of_at_index k a log : a ∈ at_index k log ↔ (k, a) ∈ log.
Proof.
  unfold at_index. rewrite list_elem_of_fmap. split.
  - intros [[j b] [-> [Hj Hin]%list_elem_of_filter]]. simpl in *. by subst.
  - intros Hin. exists (k, a). split; [done|]. by apply list_elem_of_filter.
Qed.

Lemma elem_of_tag i j a l : (j, a) ∈ tag i l ↔ j = i ∧ a ∈ l.
Proof.
  unfold tag. rewrite list_elem_of_fmap. split.
  - intros [b [[= -> ->] Hin]]. done.
  - intros [-> Hin]. by exists a.
Qed.

(** ** The timeout race *)

Lemma executeWithTimeout_settles {Req Res : Type} (c : FallbackChain.t Req Res) fn request :
  ∃ t s, FallbackChain.executeWithTimeout c fn request = SettlesAt t s.
Proof.
  unfold FallbackChain.executeWithTimeout. simpl.
  destruct (fn request) as [t s|]; simpl; [case_bool_decide|]; eauto.
Qed.

(** ** One iteration *)

Section Iteration.
Context {Req Res : Type}.
Implicit Types (c : FallbackChain.t Req Res) (item : Chainable Req Res).

Lemma body_unhealthy c request i item lastError t :
  healthCheck item = Some (SettlesAt t (Fulfilled false)) →
  FallbackChain.body c request i item lastError =
    (tag i [CallHealthCheck; Emit (EvSkipped (name item) "unhealthy")],
     Normal (Continue lastError)).
Proof. intros H. unfold FallbackChain.body. by rewrite H. Qed.

Lemma body_probe_rejects c request i item lastError t x :
  healthCheck item = Some (SettlesAt t (Rejected x)) →
  FallbackChain.body c request i item lastError =
    (tag i [CallHealthCheck], Throws x).
Proof. intros H. unfold FallbackChain.body. by rewrite H. Qed.

Lemma body_probe_pending c request i item lastError :
  healthCheck item = Some Pending →
  FallbackChain.body c request i item lastError =
    (tag i [CallHealthCheck], Never).
Proof. intros H. unfold FallbackChain.body. by rewrite H. Qed.

Lemma body_inert c request i item lastError :
  healthy item → execute item = None →
  FallbackChain.body c request i item lastError =
    (tag i (probe_actions item), Normal (Continue lastError)).
Proof.
  intros [H|[t H]] He; unfold FallbackChain.body, probe_actions;
    by rewrite H, He.
Qed.

Lemma body_success c request i item lastError fn t v :
  healthy item → execute item = Some fn →
  FallbackChain.executeWithTimeout c fn request = SettlesAt t (Fulfilled v) →
  FallbackChain.body c request i item lastError =
    (tag i (probe_actions item ++
            [CallExecute; Emit (EvSuccess (name item) i)]),
     Normal (Return v)).
Proof.
  intros [H|[u H]] He Hr; unfold FallbackChain.body, probe_actions;
    by rewrite H, He, Hr.
Qed.

Lemma next_item_exists c i :
  Z.of_nat i < Z.of_nat (List.length (FallbackChain.items c)) - 1 →
  is_Some (FallbackChain.items c !! S i).
Proof. intros H. apply lookup_lt_is_Some. lia. Qed.

Lemma body_failure c request i item lastError fn t x :
  healthy item → execute item = Some fn →
  FallbackChain.executeWithTimeout c fn request = SettlesAt t (Rejected x) →
  FallbackChain.body c request i item lastError =
    (tag i (probe_actions item ++
            [CallExecute; Emit (EvError (name item) (asError x))] ++
            (if bool_decide (FallbackChain.listenerCount c "error" = 0%nat)
             then [] else fallback_actions c i item)),
     if bool_decide (FallbackChain.listenerCount c "error" = 0%nat)
     then Throws (ThrowError (ERR_UNHANDLED_ERROR (name item) (asError x)))
     else if FallbackChain.continueOnError (FallbackChain.options c)
          then Normal (Continue (Some (asError x)))
          else Throws (ThrowError (asError x))).
Proof.
  intros Hh He Hr.
  unfold FallbackChain.body, FallbackChain.emit, probe_actions, fallback_actions.
  assert (Hnext : ¬ Z.of_nat i < Z.of_nat (List.length (FallbackChain.items c)) - 1 →
                  FallbackChain.items c !! S i = None).
  { intros Hge. apply lookup_ge_None. lia. }
  replace (i + 1)%nat with (S i) by lia.
  destruct Hh as [H|[u H]]; rewrite H, He; simpl; rewrite Hr; simpl;
    (destruct (bool_decide (FallbackChain.listenerCount c "error" = 0%nat));
     [done|]);
    (case_bool_decide as Hlt;
     [ destruct (next_item_exists c i Hlt) as [nextItem ->]
     | rewrite (Hnext Hlt) ]);
    simpl; by destruct (FallbackChain.continueOnError _).
Qed.

(** The same with the two cases apart: a chain that has a listener for the
    ['error'] event, and a chain that has none. *)
Lemma body_failure_heard c request i item lastError fn t x :
  FallbackChain.listenerCount c "error" ≠ 0%nat →
  healthy item → execute item = Some fn →
  FallbackChain.executeWithTimeout c fn request = SettlesAt t (Rejected x) →
  FallbackChain.body c request i item lastError =
    (tag i (probe_actions item ++
            [CallExecute; Emit (EvError (name item) (asError x))] ++
            fallback_actions c i item),
     if FallbackChain.continueOnError (FallbackChain.options c)
     then Normal (Continue (Some (asError x)))
     else Throws (ThrowError (asError x))).
Proof.
  intros Hl Hh He Hr. rewrite (body_failure _ _ _ _ _ _ _ _ Hh He Hr).
  by rewrite bool_decide_eq_false_2.
Qed.

Lemma body_failure_unheard c request i item lastError fn t x :
  FallbackChain.listenerCount c "error" = 0%nat →
  healthy item → execute item = Some fn →
  FallbackChain.executeWithTimeout c fn request = SettlesAt t (Rejected x) →
  FallbackChain.body c request i item lastError =
    (tag i (probe_actions item ++
            [CallExecute; Emit (EvError (name item) (asError x))]),
     Throws (ThrowError (ERR_UNHANDLED_ERROR (name item) (asError x)))).
Proof.
  intros Hl Hh He Hr. rewrite (body_failure _ _ _ _ _ _ _ _ Hh He Hr).
  by rewrite bool_decide_eq_true_2, app_nil_r.
Qed.

End Iteration.

(** The six ways an iteration can go. *)
Inductive verdict {Req Res : Type} (c : FallbackChain.t Req Res)
    (request : Req) (item : Chainable Req Res) : Prop :=
| ProbeRejects t x :
    healthCheck item = Some (SettlesAt t (Rejected x)) →
    verdict c request item
| ProbePending :
    healthCheck item = Some Pending →
    verdict c request item
| Unhealthy t :
    healthCheck item = Some (SettlesAt t (Fulfilled false)) →
    verdict c request item
| Inert :
    healthy item → execute item = None →
    verdict c request item
| Succeeds fn t v :
    healthy item → execute item = Some fn →
    FallbackChain.executeWithTimeout c fn request = SettlesAt t (Fulfilled v) →
    verdict c request item
| Fails fn t x :
    healthy item → execute item = Some fn →
    FallbackChain.executeWithTimeout c fn request = SettlesAt t (Rejected x) →
    verdict c request item.

Section Loop.
Context {Req Res : Type}.
Implicit Types (c : FallbackChain.t Req Res) (item : Chainable Req Res).
Implicit Types (rest : list (Chainable Req Res)) (log : list entry).

Lemma classify c request item : verdict c request item.
Proof.
  assert (Hrun : healthy item → verdict c request item).
  { intros Hh. destruct (execute item) as [fn|] eqn:He; [|by apply Inert].
    destruct (executeWithTimeout_settles c fn request) as (t & [v|x] & Hr).
    - by eapply Succeeds.
    - by eapply Fails. }
  destruct (healthCheck item) as [[t [[|]|x]|]|] eqn:Hp.
  - apply Hrun. right. by exists t.
  - by eapply Unhealthy.
  - by eapply ProbeRejects.
  - by apply ProbePending.
  - apply Hrun. by left.
Qed.

Lemma body_log_tagged c request i item lastError :
  ∃ l, (FallbackChain.body c request i item lastError).1 = tag i l.
Proof.
  destruct (classify c request item) as [t x H|H|t H|Hh He|fn t v Hh He Hr|fn t x Hh He Hr].
  - rewrite (body_probe_rejects _ _ _ _ _ _ _ H). eauto.
  - rewrite (body_probe_pending _ _ _ _ _ H). eauto.
  - rewrite (body_unhealthy _ _ _ _ _ _ H). eauto.
  - rewrite (body_inert _ _ _ _ _ Hh He). eauto.
  - rewrite (body_success _ _ _ _ _ _ _ _ Hh He Hr). eauto.
  - rewrite (body_failure _ _ _ _ _ _ _ _ Hh He Hr). eauto.
Qed.

(** The log of an iteration does not depend on the error recorded so far. *)
Lemma body_log_lastError c request i item e1 e2 :
  (FallbackChain.body c request i item e1).1 =
  (FallbackChain.body c request i item e2).1.
Proof.
  destruct (classify c request item) as [t x H|H|t H|Hh He|fn t v Hh He Hr|fn t x Hh He Hr].
  - by rewrite !(body_probe_rejects _ _ _ _ _ _ _ H).
  - by rewrite !(body_probe_pending _ _ _ _ _ H).
  - by rewrite !(body_unhealthy _ _ _ _ _ _ H).
  - by rewrite !(body_inert _ _ _ _ _ Hh He).
  - by rewrite !(body_success _ _ _ _ _ _ _ _ Hh He Hr).
  - by rewrite !(body_failure _ _ _ _ _ _ _ _ Hh He Hr).
Qed.

Lemma loop_stop c request i item rest lastError comp :
  stops (FallbackChain.body c request i item lastError).2 = Some comp →
  FallbackChain.loop c request i (item :: rest) lastError =
    ((FallbackChain.body c request i item lastError).1, comp).
Proof.
  simpl. destruct (FallbackChain.body c request i item lastError) as [w [[e|v]|x|]];
    simpl; intros [= <-]; try done.
  by rewrite app_nil_r.
Qed.

Lemma loop_continue c request i item rest lastError lastError' :
  (FallbackChain.body c request i item lastError).2 = Normal (Continue lastError') →
  FallbackChain.loop c request i (item :: rest) lastError =
    ((FallbackChain.body c request i item lastError).1 ++
       (FallbackChain.loop c request (S i) rest lastError').1,
     (FallbackChain.loop c request (S i) rest lastError').2).
Proof.
  simpl. destruct (FallbackChain.body c request i item lastError) as [w r].
  simpl. intros ->. simpl.
  by destruct (FallbackChain.loop c request (S i) rest lastError').
Qed.

Lemma stops_or_continues (r : completion (iteration Res)) :
  (∃ comp, stops r = Some comp) ∨ (∃ e, r = Normal (Continue e)).
Proof. destruct r as [[e|v]|x|]; simpl; eauto. Qed.

(** Iteration [i] and the ones after it log under their own indices. *)
Lemma loop_log_range c request rest i lastError j a :
  (j, a) ∈ (FallbackChain.loop c request i rest lastError).1 →
  (i ≤ j < i + List.length rest)%nat.
Proof.
  revert i lastError. induction rest as [|item rest IH]; intros i lastError.
  - simpl. by intros ?%elem_of_nil.
  - destruct (body_log_tagged c request i item lastError) as [l Hl].
    destruct (stops_or_continues (FallbackChain.body c request i item lastError).2)
      as [[comp Hs]|[e He]].
    + rewrite (loop_stop _ _ _ _ _ _ _ Hs), Hl. simpl.
      intros [-> _]%elem_of_tag. lia.
    + rewrite (loop_continue _ _ _ _ _ _ _ He), Hl. simpl.
      intros [[-> _]%elem_of_tag|Hin%IH]%elem_of_app; lia.
Qed.

(** Whatever iteration [k] logged is the log of the loop body run on the
    provider at [k]; and if that run ended the loop, the call completed as
    the run did and no later iteration logged anything. *)
Lemma loop_inversion c request rest i lastError k a :
  (k, a) ∈ (FallbackChain.loop c request i rest lastError).1 →
  ∃ item e,
    rest !! (k - i)%nat = Some item ∧ (i ≤ k)%nat ∧
    tag k (at_index k (FallbackChain.loop c request i rest lastError).1) =
      (FallbackChain.body c request k item e).1 ∧
    ∀ comp, stops (FallbackChain.body c request k item e).2 = Some comp →
      (FallbackChain.loop c request i rest lastError).2 = comp ∧
      ∀ j b, (j, b) ∈ (FallbackChain.loop c request i rest lastError).1 →
             (j ≤ k)%nat.
Proof.
  revert i lastError. induction rest as [|item rest IH]; intros i lastError.
  { simpl. by intros ?%elem_of_nil. }
  destruct (body_log_tagged c request i item lastError) as [l Hl].
  destruct (stops_or_continues (FallbackChain.body c request i item lastError).2)
    as [[comp Hs]|[e He]].
  - rewrite (loop_stop _ _ _ _ _ _ _ Hs). simpl. rewrite Hl.
    intros [-> _]%elem_of_tag. exists item, lastError.
    rewrite Nat.sub_diag, at_index_tag_eq, Hl. split_and!; [done..|].
    intros comp' Hs'. split; [congruence|].
    by intros j b [-> _]%elem_of_tag.
  - rewrite (loop_continue _ _ _ _ _ _ _ He). simpl. rewrite Hl.
    intros [[-> _]%elem_of_tag|Hin]%elem_of_app.
    + exists item, lastError. rewrite Nat.sub_diag, at_index_app, at_index_tag_eq.
      rewrite (at_index_absent i (FallbackChain.loop _ _ _ _ _).1), app_nil_r, Hl.
      * split_and!; [done..|]. intros comp' Hs'. rewrite He in Hs'. done.
      * intros j b Hjb%loop_log_range. lia.
    + pose proof (loop_log_range _ _ _ _ _ _ _ Hin) as Hk.
      destruct (IH _ _ Hin) as (item' & e' & Hlook & Hle & Hat & Hstop).
      exists item', e'. rewrite at_index_app, at_index_tag_ne by lia.
      replace (k - i)%nat with (S (k - S i)) by lia. simpl.
      split_and!; [done|lia|done|].
      intros comp' Hs'. destruct (Hstop _ Hs') as [Hc Hlast]. split; [done|].
      intros j b [[-> _]%elem_of_tag|Hjb]%elem_of_app; [lia|].
      by eapply Hlast.
Qed.

End Loop.

(** ** The call as a whole *)

(** Closes a goal from [H : a ∈ [a1; ...; an]] when [a] is none of them. *)
Ltac absent_from_list H :=
  repeat (apply elem_of_cons in H as [H|H]; [discriminate H|]);
  by apply elem_of_nil in H.

Section Execute.
Context {Req Res : Type}.
Implicit Types (c : FallbackChain.t Req Res) (item : Chainable Req Res).

Lemma tag_inj k l1 l2 : tag k l1 = tag k l2 → l1 = l2.
Proof. intros H. by rewrite <-(at_index_tag_eq k l1), H, at_index_tag_eq. Qed.

(** [loop_inversion] for the whole call. *)
Lemma execute_inversion c request k a item :
  FallbackChain.items c !! k = Some item →
  (k, a) ∈ (FallbackChain.execute c request).1 →
  ∃ e,
    tag k (at_index k (FallbackChain.execute c request).1) =
      (FallbackChain.body c request k item e).1 ∧
    ∀ comp, stops (FallbackChain.body c request k item e).2 = Some comp →
      (FallbackChain.execute c request).2 = comp ∧
      ∀ j b, (j, b) ∈ (FallbackChain.execute c request).1 → (j ≤ k)%nat.
Proof.
  intros Hk Hin. unfold FallbackChain.execute in *.
  destruct (loop_inversion _ _ _ _ _ _ _ Hin) as (item' & e & Hlook & _ & Hat & Hstop).
  rewrite Nat.sub_0_r, Hk in Hlook. injection Hlook as <-. eauto.
Qed.

(** A provider whose operation was called had been found healthy. *)
Lemma called_is_healthy c request k item :
  FallbackChain.items c !! k = Some item →
  (k, CallExecute) ∈ (FallbackChain.execute c request).1 →
  healthy item.
Proof.
  intros Hk Hin. destruct (execute_inversion _ _ _ _ _ Hk Hin) as (e & Hat & _).
  assert (Hin' : (k, CallExecute) ∈
            tag k (at_index k (FallbackChain.execute c request).1))
    by (by apply elem_of_tag, conj, elem_of_at_index).
  clear Hin. rename Hin' into Hin. rewrite Hat in Hin.
  destruct (classify c request item) as [t x H|H|t H|Hh He|fn t v Hh He Hr|fn t x Hh He Hr];
    [ rewrite (body_probe_rejects _ _ _ _ _ _ _ H) in Hin
    | rewrite (body_probe_pending _ _ _ _ _ H) in Hin
    | rewrite (body_unhealthy _ _ _ _ _ _ H) in Hin
    | done.. ];
    apply elem_of_tag in Hin as [_ Hin]; absent_from_list Hin.
Qed.

(** What the log and the completion look like around a provider whose
    operation was called and lost, won, or was never reached. *)
Lemma call_fails c request k item fn t x :
  FallbackChain.items c !! k = Some item →
  execute item = Some fn →
  (k, CallExecute) ∈ (FallbackChain.execute c request).1 →
  FallbackChain.executeWithTimeout c fn request = SettlesAt t (Rejected x) →
  at_index k (FallbackChain.execute c request).1 =
    probe_actions item ++
    [CallExecute; Emit (EvError (name item) (asError x))] ++
    (if bool_decide (FallbackChain.listenerCount c "error" = 0%nat)
     then [] else fallback_actions c k item) ∧
  (FallbackChain.listenerCount c "error" = 0%nat →
   (FallbackChain.execute c request).2 =
     Throws (ThrowError (ERR_UNHANDLED_ERROR (name item) (asError x))) ∧
   ∀ j b, (j, b) ∈ (FallbackChain.execute c request).1 → (j ≤ k)%nat) ∧
  (FallbackChain.listenerCount c "error" ≠ 0%nat →
   FallbackChain.continueOnError (FallbackChain.options c) = false →
   (FallbackChain.execute c request).2 = Throws (ThrowError (asError x)) ∧
   ∀ j b, (j, b) ∈ (FallbackChain.execute c request).1 → (j ≤ k)%nat).
Proof.
  intros Hk He Hin Hr.
  pose proof (called_is_healthy _ _ _ _ Hk Hin) as Hh.
  destruct (execute_inversion _ _ _ _ _ Hk Hin) as (e & Hat & Hstop).
  rewrite (body_failure _ _ _ _ _ _ _ _ Hh He Hr) in Hat, Hstop.
  cbn [fst snd] in Hat, Hstop. apply tag_inj in Hat. split; [done|]. split.
  - intros Hl. rewrite bool_decide_eq_true_2 in Hstop by done. by apply Hstop.
  - intros Hl Hc. rewrite bool_decide_eq_false_2, Hc in Hstop by done.
    by apply Hstop.
Qed.

Lemma call_succeeds c request k item fn t v :
  FallbackChain.items c !! k = Some item →
  execute item = Some fn →
  (k, CallExecute) ∈ (FallbackChain.execute c request).1 →
  FallbackChain.executeWithTimeout c fn request = SettlesAt t (Fulfilled v) →
  at_index k (FallbackChain.execute c request).1 =
    probe_actions item ++ [CallExecute; Emit (EvSuccess (name item) k)] ∧
  (FallbackChain.execute c request).2 = Normal v ∧
  ∀ j b, (j, b) ∈ (FallbackChain.execute c request).1 → (j ≤ k)%nat.
Proof.
  intros Hk He Hin Hr.
  pose proof (called_is_healthy _ _ _ _ Hk Hin) as Hh.
  destruct (execute_inversion _ _ _ _ _ Hk Hin) as (e & Hat & Hstop).
  rewrite (body_success _ _ _ _ _ _ _ _ Hh He Hr) in Hat, Hstop.
  simpl in Hat, Hstop. apply tag_inj in Hat. split; [done|].
  by apply Hstop.
Qed.

(** A call that returns a value has called a provider that produced it. *)
Lemma loop_returns c request rest i lastError v :
  (FallbackChain.loop c request i rest lastError).2 = Normal v →
  ∃ k item fn t,
    rest !! k = Some item ∧ execute item = Some fn ∧
    ((i + k)%nat, CallExecute) ∈ (FallbackChain.loop c request i rest lastError).1 ∧
    FallbackChain.executeWithTimeout c fn request = SettlesAt t (Fulfilled v).
Proof.
  revert i lastError. induction rest as [|item rest IH]; intros i lastError; [done|].
  assert (Hnext : ∀ e,
    (FallbackChain.body c request i item lastError).2 = Normal (Continue e) →
    (FallbackChain.loop c request i (item :: rest) lastError).2 = Normal v →
    ∃ k item' fn t,
      (item :: rest) !! k = Some item' ∧ execute item' = Some fn ∧
      ((i + k)%nat, CallExecute) ∈
        (FallbackChain.loop c request i (item :: rest) lastError).1 ∧
      FallbackChain.executeWithTimeout c fn request = SettlesAt t (Fulfilled v)).
  { intros e Hb. rewrite (loop_continue _ _ _ _ _ _ _ Hb). simpl.
    intros (k & item' & fn & t & Hk & He & Hin & Hr)%IH.
    exists (S k), item', fn, t. split_and!; [done..| |done].
    apply elem_of_app. right. by replace (i + S k)%nat with (S i + k)%nat by lia. }
  destruct (classify c request item) as [t x H|H|t H|Hh He|fn t w Hh He Hr|fn t x Hh He Hr].
  - rewrite (loop_stop _ _ _ _ _ _ (Throws x));
      [done | by rewrite (body_probe_rejects _ _ _ _ _ _ _ H)].
  - rewrite (loop_stop _ _ _ _ _ _ Never);
      [done | by rewrite (body_probe_pending _ _ _ _ _ H)].
  - apply (Hnext lastError). by rewrite (body_unhealthy _ _ _ _ _ _ H).
  - apply (Hnext lastError). by rewrite (body_inert _ _ _ _ _ Hh He).
  - rewrite (loop_stop _ _ _ _ _ _ (Normal w));
      [|by rewrite (body_success _ _ _ _ _ _ _ _ Hh He Hr)].
    rewrite (body_success _ _ _ _ _ _ _ _ Hh He Hr). simpl. intros [= ->].
    exists 0%nat, item, fn, t. split_and!; [done..| |done].
    rewrite Nat.add_0_r. apply elem_of_tag. split; [done|].
    apply elem_of_app. right. by left.
  - pose proof (body_failure _ _ i _ lastError _ _ _ Hh He Hr) as Hb.
    destruct (bool_decide (FallbackChain.listenerCount c "error" = 0%nat)).
    { rewrite (loop_stop _ _ _ _ _ _
                 (Throws (ThrowError (ERR_UNHANDLED_ERROR (name item) (asError x)))));
        [done | by rewrite Hb]. }
    destruct (FallbackChain.continueOnError (FallbackChain.options c)).
    + apply (Hnext (Some (asError x))). by rewrite Hb.
    + rewrite (loop_stop _ _ _ _ _ _ (Throws (ThrowError (asError x))));
        [done | by rewrite Hb].
Qed.

(** *** Which providers the loop leaves behind *)

(** The race is won with a value exactly when the operation is fulfilled
    with it no later than the timer fires. *)
Lemma executeWithTimeout_fulfilled c fn request t v :
  FallbackChain.executeWithTimeout c fn request = SettlesAt t (Fulfilled v) ↔
  fn request = SettlesAt t (Fulfilled v) ∧
  t ≤ setTimeout (FallbackChain.timeoutPerItem (FallbackChain.options c)).
Proof.
  unfold FallbackChain.executeWithTimeout. simpl.
  destruct (fn request) as [u s|]; simpl.
  - case_bool_decide as Hu; split.
    + by intros [= -> ->].
    + by intros [[= -> ->] _].
    + done.
    + intros [[= -> ->] Hle]. lia.
  - split; [done|]. by intros [[=] _].
Qed.

Lemma in_time_Some c fn request v :
  in_time c fn request = Some v ↔
  ∃ t, fn request = SettlesAt t (Fulfilled v) ∧
       t ≤ setTimeout (FallbackChain.timeoutPerItem (FallbackChain.options c)).
Proof.
  unfold in_time. destruct (fn request) as [t [w|x]|]; [case_bool_decide|..]; split;
    try done; try (by intros (u & [=] & _)).
  - intros [= ->]. eauto.
  - by intros (u & [= -> ->] & _).
  - intros (u & [= -> ->] & Hle). lia.
Qed.

Lemma in_time_won c fn request v :
  in_time c fn request = Some v ↔
  ∃ t, FallbackChain.executeWithTimeout c fn request = SettlesAt t (Fulfilled v).
Proof.
  rewrite in_time_Some. split.
  - intros (t & Hr & Hle). exists t. by apply executeWithTimeout_fulfilled.
  - intros (t & Hr%executeWithTimeout_fulfilled). eauto.
Qed.

Lemma in_time_lost c fn request :
  in_time c fn request = None ↔
  ∃ t x, FallbackChain.executeWithTimeout c fn request = SettlesAt t (Rejected x).
Proof.
  destruct (executeWithTimeout_settles c fn request) as (t & [v|x] & Hr); split.
  - intros Hn. assert (Hs : in_time c fn request = Some v)
      by (apply in_time_won; eauto). congruence.
  - intros (u & x & Hx). congruence.
  - eauto.
  - intros _. destruct (in_time c fn request) as [v|] eqn:Hv; [|done].
    apply in_time_won in Hv as (u & Hu). congruence.
Qed.

Lemma elem_of_probe_actions item a :
  a ∈ probe_actions item → a = CallHealthCheck.
Proof.
  unfold probe_actions. destruct (healthCheck item); [|by intros ?%elem_of_nil].
  by intros ->%list_elem_of_singleton.
Qed.

(** [moves_on] says when an iteration ends with [continue] or runs off the
    end of the loop body. *)
Lemma moves_on_continues c request i item lastError :
  moves_on c request item = true ↔
  ∃ e, (FallbackChain.body c request i item lastError).2 = Normal (Continue e).
Proof.
  assert (Hrun : healthy item →
    moves_on c request item =
      match execute item with
      | None => true
      | Some fn =>
          match in_time c fn request with
          | Some _ => false
          | None =>
              FallbackChain.continueOnError (FallbackChain.options c) &&
              negb (bool_decide (FallbackChain.listenerCount c "error" = 0%nat))
          end
      end).
  { unfold moves_on. by intros [->|[t ->]]. }
  destruct (classify c request item) as [t x H|H|t H|Hh He|fn t v Hh He Hr|fn t x Hh He Hr].
  - rewrite (body_probe_rejects _ _ _ _ _ _ _ H). unfold moves_on. rewrite H.
    split; [done|]. by intros [e [=]].
  - rewrite (body_probe_pending _ _ _ _ _ H). unfold moves_on. rewrite H.
    split; [done|]. by intros [e [=]].
  - rewrite (body_unhealthy _ _ _ _ _ _ H). unfold moves_on. rewrite H.
    split; [eauto|done].
  - rewrite (body_inert _ _ _ _ _ Hh He), (Hrun Hh), He. split; [eauto|done].
  - rewrite (body_success _ _ _ _ _ _ _ _ Hh He Hr), (Hrun Hh), He.
    rewrite (proj2 (in_time_won c fn request v)) by eauto.
    split; [done|]. by intros [e [=]].
  - rewrite (body_failure _ _ _ _ _ _ _ _ Hh He Hr), (Hrun Hh), He.
    rewrite (proj2 (in_time_lost c fn request)) by eauto. cbn [snd].
    destruct (bool_decide (FallbackChain.listenerCount c "error" = 0%nat)),
      (FallbackChain.continueOnError (FallbackChain.options c)); simpl;
      split; eauto; try done; by intros [e [=]].
Qed.

Lemma moves_on_body c request i item lastError :
  moves_on c request item = true →
  ∃ l e, FallbackChain.body c request i item lastError =
           (tag i l, Normal (Continue e)).
Proof.
  intros [e He]%(moves_on_continues c request i item lastError).
  destruct (body_log_tagged c request i item lastError) as [l Hl].
  exists l, e. destruct (FallbackChain.body c request i item lastError).
  simpl in *. by subst.
Qed.

Lemma passed_over_body c request i item lastError :
  passed_over item = true →
  ∃ l, (CallExecute ∉ l) ∧
       FallbackChain.body c request i item lastError =
         (tag i l, Normal (Continue lastError)).
Proof.
  unfold passed_over. intros Hp.
  destruct (healthCheck item) as [[t [[|]|x]|]|] eqn:Hh; try done.
  - destruct (execute item) eqn:He; [done|].
    exists (probe_actions item). split.
    + intros Hin%elem_of_probe_actions. done.
    + apply body_inert; [|done]. right. eauto.
  - exists [CallHealthCheck; Emit (EvSkipped (name item) "unhealthy")]. split.
    + intros Hin. absent_from_list Hin.
    + by eapply body_unhealthy.
  - destruct (execute item) eqn:He; [done|].
    exists (probe_actions item). split.
    + intros Hin%elem_of_probe_actions. done.
    + apply body_inert; [|done]. by left.
Qed.

Lemma passed_over_moves_on c request item :
  passed_over item = true → moves_on c request item = true.
Proof.
  intros Hp. apply (moves_on_continues c request 0 item None).
  destruct (passed_over_body c request 0 item None Hp) as (l & _ & ->). eauto.
Qed.

(** After providers that the loop all leaves behind it is at the next
    one: what follows in the log, and the completion, are those of the loop
    started there with some recorded error. *)
Lemma loop_after_prefix c request pre rest i lastError :
  Forall (λ item, moves_on c request item = true) pre →
  ∃ w e,
    FallbackChain.loop c request i (pre ++ rest) lastError =
      (w ++ (FallbackChain.loop c request (i + List.length pre) rest e).1,
       (FallbackChain.loop c request (i + List.length pre) rest e).2) ∧
    ∀ j b, (j, b) ∈ w → (j < i + List.length pre)%nat.
Proof.
  intros Hall. revert i lastError.
  induction Hall as [|item pre Hitem _ IH]; intros i lastError.
  - exists [], lastError. simpl. rewrite Nat.add_0_r.
    split; [by destruct (FallbackChain.loop _ _ _ _ _)|]. by intros j b ?%elem_of_nil.
  - destruct (moves_on_body c request i item lastError Hitem) as (l & e & Hb).
    destruct (IH (S i) e) as (w & e' & Heq & Hw).
    exists (tag i l ++ w), e'.
    change ((item :: pre) ++ rest) with (item :: (pre ++ rest)).
    rewrite (loop_continue _ _ _ _ _ _ e) by (by rewrite Hb).
    rewrite Hb, Heq. cbn [fst snd List.length].
    replace (i + S (List.length pre))%nat with (S i + List.length pre)%nat by lia.
    split; [by rewrite app_assoc|].
    intros j b [[-> _]%elem_of_tag|Hj%Hw]%elem_of_app; lia.
Qed.

(** The loop started at the head of the list is at [i] once every provider
    before [i] is left behind. *)
Lemma execute_reaches c request i item :
  FallbackChain.items c !! i = Some item →
  (∀ j item', (j < i)%nat → FallbackChain.items c !! j = Some item' →
              moves_on c request item' = true) →
  ∃ w e,
    FallbackChain.execute c request =
      (w ++ (FallbackChain.loop c request i
               (item :: drop (S i) (FallbackChain.items c)) e).1,
       (FallbackChain.loop c request i
          (item :: drop (S i) (FallbackChain.items c)) e).2) ∧
    ∀ j b, (j, b) ∈ w → (j < i)%nat.
Proof.
  intros Hk Hpre. unfold FallbackChain.execute.
  assert (Hlen : List.length (take i (FallbackChain.items c)) = i).
  { apply length_take_le. apply lookup_lt_Some in Hk. lia. }
  destruct (loop_after_prefix c request (take i (FallbackChain.items c))
              (item :: drop (S i) (FallbackChain.items c)) 0 None)
    as (w & e & Heq & Hw).
  { apply Forall_forall. intros item' [j Hj]%list_elem_of_lookup.
    apply lookup_take_Some in Hj as [Hj Hlt]. by apply (Hpre j). }
  rewrite (take_drop_middle _ _ _ Hk), Hlen in Heq. cbn [Nat.add] in Heq.
  exists w, e. split; [done|]. intros j b Hj%Hw. lia.
Qed.

(** Whatever an iteration logged, every provider before it was left
    behind. *)
Lemma log_prefix_moves_on c request rest i lastError k a :
  (k, a) ∈ (FallbackChain.loop c request i rest lastError).1 →
  ∀ j item', (j < k - i)%nat → rest !! j = Some item' →
             moves_on c request item' = true.
Proof.
  revert i lastError. induction rest as [|item rest IH]; intros i lastError.
  { simpl. by intros ?%elem_of_nil. }
  destruct (body_log_tagged c request i item lastError) as [l Hl].
  destruct (stops_or_continues (FallbackChain.body c request i item lastError).2)
    as [[comp Hs]|[e He]].
  - rewrite (loop_stop _ _ _ _ _ _ _ Hs). simpl. rewrite Hl.
    intros [-> _]%elem_of_tag j item' Hj. lia.
  - rewrite (loop_continue _ _ _ _ _ _ _ He). simpl. rewrite Hl.
    intros [[-> _]%elem_of_tag|Hin]%elem_of_app j item' Hj Hlook; [lia|].
    pose proof (loop_log_range _ _ _ _ _ _ _ Hin) as Hk.
    destruct j as [|j]; simpl in Hlook.
    + injection Hlook as <-.
      apply (moves_on_continues c request i item lastError). eauto.
    + apply (IH _ _ Hin j); [lia|done].
Qed.

Lemma body_log_in_loop c request i item rest lastError en :
  en ∈ (FallbackChain.body c request i item lastError).1 →
  en ∈ (FallbackChain.loop c request i (item :: rest) lastError).1.
Proof.
  intros Hen.
  destruct (stops_or_continues (FallbackChain.body c request i item lastError).2)
    as [[comp Hs]|[e He]].
  - by rewrite (loop_stop _ _ _ _ _ _ _ Hs).
  - rewrite (loop_continue _ _ _ _ _ _ _ He). apply elem_of_app. by left.
Qed.

(** A provider that is tried and has an operation has it called. *)
Lemma body_calls c request i item lastError :
  healthy item → is_Some (execute item) →
  (i, CallExecute) ∈ (FallbackChain.body c request i item lastError).1.
Proof.
  intros Hh [fn He].
  destruct (executeWithTimeout_settles c fn request) as (t & [v|x] & Hr).
  - rewrite (body_success _ _ _ _ _ _ _ _ Hh He Hr). simpl.
    apply elem_of_tag. split; [done|]. apply elem_of_app. right. by left.
  - rewrite (body_failure _ _ _ _ _ _ _ _ Hh He Hr). simpl.
    apply elem_of_tag. split; [done|]. apply elem_of_app. right. by left.
Qed.

Lemma called_has_operation c request k item :
  FallbackChain.items c !! k = Some item →
  (k, CallExecute) ∈ (FallbackChain.execute c request).1 →
  is_Some (execute item).
Proof.
  intros Hk Hin. pose proof (called_is_healthy _ _ _ _ Hk Hin) as Hh.
  destruct (execute item) as [fn|] eqn:He; [eauto|].
  destruct (execute_inversion _ _ _ _ _ Hk Hin) as (e & Hat & _).
  assert (Hin' : (k, CallExecute) ∈
            tag k (at_index k (FallbackChain.execute c request).1))
    by (by apply elem_of_tag, conj, elem_of_at_index).
  rewrite Hat, (body_inert _ _ _ _ _ Hh He) in Hin'.
  apply elem_of_tag in Hin' as [_ Hin']. by apply elem_of_probe_actions in Hin'.
Qed.

(** The operation of the provider at [i] is called exactly when the
    provider is tried, has an operation, and every provider before it is
    left behind. *)
Lemma called_iff_reached c request i item :
  FallbackChain.items c !! i = Some item →
  (i, CallExecute) ∈ (FallbackChain.execute c request).1 ↔
  healthy item ∧ is_Some (execute item) ∧
  ∀ j item', (j < i)%nat → FallbackChain.items c !! j = Some item' →
             moves_on c request item' = true.
Proof.
  intros Hk. split.
  - intros Hin. split_and!.
    + by eapply called_is_healthy.
    + by eapply called_has_operation.
    + intros j item' Hj Hlook. unfold FallbackChain.execute in Hin.
      apply (log_prefix_moves_on _ _ _ _ _ _ _ Hin j); [lia|done].
  - intros (Hh & He & Hpre).
    destruct (execute_reaches c request i item Hk Hpre) as (w & e & -> & _).
    cbn [fst]. apply elem_of_app. right.
    by apply body_log_in_loop, body_calls.
Qed.

End Execute.

(** ** Success *)

Section Success.
Context {Req Res : Type}.
Implicit Types (c : FallbackChain.t Req Res) (item : Chainable Req Res).

(** C1.  [execute] returns a value exactly when the operation of some
    provider is called and is fulfilled with that value no later than the
    timer set to [timeoutPerItem] fires; read off the list, that is: some
    provider is tried (no probe, or a probe that answers [true]), every
    provider before it is left behind ([moves_on]), and its operation is
    fulfilled with the value in time.  The operation of the provider at [i]
    is called exactly when the provider is tried, has an operation, and
    every provider before it is left behind.  The provider whose operation
    is fulfilled in time ends the call: its iteration logs the call and the
    ['success'] notification with its name and index, nothing is logged
    for a later provider (none is health-checked or called), and no
    provider before it is tried with an operation that is fulfilled in
    time: it is the first one in the order of the list. *)
Theorem execute_returns_iff_success c request :
  (∀ v,
     (FallbackChain.execute c request).2 = Normal v ↔
     ∃ i item fn t,
       FallbackChain.items c !! i = Some item ∧ execute item = Some fn ∧
       (i, CallExecute) ∈ (FallbackChain.execute c request).1 ∧
       fn request = SettlesAt t (Fulfilled v) ∧
       t ≤ setTimeout (FallbackChain.timeoutPerItem (FallbackChain.options c))) ∧
  (∀ v,
     (FallbackChain.execute c request).2 = Normal v ↔
     ∃ i item fn t,
       FallbackChain.items c !! i = Some item ∧
       healthy item ∧ execute item = Some fn ∧
       (∀ j item', (j < i)%nat → FallbackChain.items c !! j = Some item' →
                   moves_on c request item' = true) ∧
       fn request = SettlesAt t (Fulfilled v) ∧
       t ≤ setTimeout (FallbackChain.timeoutPerItem (FallbackChain.options c))) ∧
  (∀ i item,
     FallbackChain.items c !! i = Some item →
     ((i, CallExecute) ∈ (FallbackChain.execute c request).1 ↔
      healthy item ∧ is_Some (execute item) ∧
      ∀ j item', (j < i)%nat → FallbackChain.items c !! j = Some item' →
                 moves_on c request item' = true)) ∧
  (∀ i item fn t v,
     FallbackChain.items c !! i = Some item → execute item = Some fn →
     (i, CallExecute) ∈ (FallbackChain.execute c request).1 →
     fn request = SettlesAt t (Fulfilled v) →
     t ≤ setTimeout (FallbackChain.timeoutPerItem (FallbackChain.options c)) →
     (FallbackChain.execute c request).2 = Normal v ∧
     at_index i (FallbackChain.execute c request).1 =
       probe_actions item ++ [CallExecute; Emit (EvSuccess (name item) i)] ∧
     (∀ j b, (j, b) ∈ (FallbackChain.execute c request).1 → (j ≤ i)%nat) ∧
     (∀ j item' fn' t' v',
        (j < i)%nat → FallbackChain.items c !! j = Some item' →
        healthy item' → execute item' = Some fn' →
        fn' request = SettlesAt t' (Fulfilled v') →
        setTimeout (FallbackChain.timeoutPerItem (FallbackChain.options c)) < t')).
Proof.
  assert (Hiff : ∀ v,
    (FallbackChain.execute c request).2 = Normal v ↔
    ∃ i item fn t,
      FallbackChain.items c !! i = Some item ∧ execute item = Some fn ∧
      (i, CallExecute) ∈ (FallbackChain.execute c request).1 ∧
      fn request = SettlesAt t (Fulfilled v) ∧
      t ≤ setTimeout (FallbackChain.timeoutPerItem (FallbackChain.options c))).
  { intros v. split.
    - intros Hv. unfold FallbackChain.execute in *.
      destruct (loop_returns _ _ _ _ _ _ Hv)
        as (k & item & fn & t & Hk & He & Hin & [Hr Hle]%executeWithTimeout_fulfilled).
      by exists k, item, fn, t.
    - intros (i & item & fn & t & Hk & He & Hin & Hr & Hle).
      assert (Hwon : FallbackChain.executeWithTimeout c fn request =
                     SettlesAt t (Fulfilled v))
        by (by apply executeWithTimeout_fulfilled).
      by destruct (call_succeeds _ _ _ _ _ _ _ Hk He Hin Hwon) as (_ & Hv & _). }
  split_and!.
  - exact Hiff.
  - intros v. rewrite Hiff. split.
    + intros (i & item & fn & t & Hk & He & Hin & Hr & Hle).
      destruct (proj1 (called_iff_reached c request i item Hk) Hin)
        as (Hh & _ & Hpre).
      by exists i, item, fn, t.
    + intros (i & item & fn & t & Hk & Hh & He & Hpre & Hr & Hle).
      exists i, item, fn, t. split_and!; [done..| |done|done].
      apply (called_iff_reached c request i item Hk). eauto.
  - intros i item Hk. by apply called_iff_reached.
  - intros i item fn t v Hk He Hin Hr Hle.
    assert (Hwon : FallbackChain.executeWithTimeout c fn request =
                   SettlesAt t (Fulfilled v))
      by (by apply executeWithTimeout_fulfilled).
    destruct (call_succeeds _ _ _ _ _ _ _ Hk He Hin Hwon) as (Hat & Hv & Hlast).
    split_and!; [done..|].
    intros j item' fn' t' v' Hj Hk' Hh' He' Hr'.
    destruct (proj1 (called_iff_reached c request i item Hk) Hin) as (_ & _ & Hpre).
    pose proof (Hpre j item' Hj Hk') as Hm.
    destruct (decide (t' ≤ setTimeout
                (FallbackChain.timeoutPerItem (FallbackChain.options c))))
      as [Hle'|?]; [|lia].
    assert (Hs : in_time c fn' request = Some v')
      by (apply in_time_Some; eauto).
    unfold moves_on in Hm. rewrite He', Hs in Hm.
    by destruct Hh' as [Hp|[u Hp]]; rewrite Hp in Hm.
Qed.

End Success.

Lemma execute_returns_iff_success_witness :
  (FallbackChain.execute Examples.chain_BA "request").2 = Normal "a" ∧
  at_index 1 (FallbackChain.execute Examples.chain_BA "request").1 =
    [CallExecute; Emit (EvSuccess "A" 1)] ∧
  ∀ j b, (j, b) ∈ (FallbackChain.execute Examples.chain_BA "request").1 → (j ≤ 1)%nat.
Proof.
  destruct (execute_returns_iff_success Examples.chain_BA "request")
    as (_ & _ & _ & H).
  destruct (H 1%nat Examples.A (λ _, SettlesAt 5 (Fulfilled "a")) 5 "a")
    as (Hv & Hat & Hlast & _); [reflexivity..| |reflexivity|by vm_compute|done].
  vm_compute. repeat constructor.
Defined.

(** ** Providers that are skipped *)

Section Skipped.
Context {Req Res : Type}.
Implicit Types (c : FallbackChain.t Req Res) (item : Chainable Req Res).

(** C6.  When the probe of the provider at [i] was called and answered
    [false], iteration [i] logs the call of the probe and the ['skipped']
    notification and nothing else: the operation is not called and no
    ['error'] or ['fallback'] notification is made.  The loop goes on at
    [i + 1] with the error recorded so far unchanged. *)
Theorem unhealthy_provider_is_skipped c request i item t :
  FallbackChain.items c !! i = Some item →
  healthCheck item = Some (SettlesAt t (Fulfilled false)) →
  (i, CallHealthCheck) ∈ (FallbackChain.execute c request).1 →
  at_index i (FallbackChain.execute c request).1 =
    [CallHealthCheck; Emit (EvSkipped (name item) "unhealthy")] ∧
  ∀ lastError,
    FallbackChain.loop c request i (drop i (FallbackChain.items c)) lastError =
      (tag i [CallHealthCheck; Emit (EvSkipped (name item) "unhealthy")] ++
         (FallbackChain.loop c request (S i)
            (drop (S i) (FallbackChain.items c)) lastError).1,
       (FallbackChain.loop c request (S i)
            (drop (S i) (FallbackChain.items c)) lastError).2).
Proof.
  intros Hk Hp Hin. split.
  - destruct (execute_inversion _ _ _ _ _ Hk Hin) as (e & Hat & _).
    rewrite (body_unhealthy _ _ _ _ _ _ Hp) in Hat. by apply tag_inj in Hat.
  - intros lastError. rewrite (drop_S _ _ _ Hk).
    rewrite (loop_continue _ _ _ _ _ _ lastError);
      by rewrite (body_unhealthy _ _ _ _ _ _ Hp).
Qed.

End Skipped.

Lemma unhealthy_provider_is_skipped_witness :
  at_index 0 (FallbackChain.execute Examples.chain_CA "request").1 =
    [CallHealthCheck; Emit (EvSkipped "C" "unhealthy")] ∧
  (FallbackChain.execute Examples.chain_CA "request").2 = Normal "a".
Proof.
  split; [|reflexivity].
  refine (proj1 (unhealthy_provider_is_skipped Examples.chain_CA "request" 0
                   Examples.C 1 _ _ _)); [reflexivity..|].
  vm_compute. repeat constructor.
Defined.

(** ** Failure *)

Section Failure.
Context {Req Res : Type}.
Implicit Types (c : FallbackChain.t Req Res) (item : Chainable Req Res).

(** X28.  What a provider whose operation was called and lost the race
    does to the call.  On a chain without a listener for the ['error']
    event the notification of the error is the last thing the call does:
    the emitter throws, [execute] fails with the emitter's error, which
    holds the provider's name and error, and neither [onFallback] nor a
    ['fallback'] notification nor a later provider follows, whatever
    [continueOnError] is.  On a chain with such a listener the iteration
    logs the ['error'] notification, then, unless the provider is the last
    one, the call of [onFallback] and the ['fallback'] notification with the
    names of the provider and of the one right after it; with
    [continueOnError = false] the call then fails with the provider's error
    and nothing later is logged, and with [continueOnError = true] the loop
    goes on at [i + 1] with that error recorded. *)
Theorem failed_operation_outcome c request i item fn t x :
  FallbackChain.items c !! i = Some item →
  execute item = Some fn →
  (i, CallExecute) ∈ (FallbackChain.execute c request).1 →
  FallbackChain.executeWithTimeout c fn request = SettlesAt t (Rejected x) →
  (FallbackChain.listenerCount c "error" = 0%nat →
   at_index i (FallbackChain.execute c request).1 =
     probe_actions item ++
     [CallExecute; Emit (EvError (name item) (asError x))] ∧
   (FallbackChain.execute c request).2 =
     Throws (ThrowError (ERR_UNHANDLED_ERROR (name item) (asError x))) ∧
   ∀ j b, (j, b) ∈ (FallbackChain.execute c request).1 → (j ≤ i)%nat) ∧
  (FallbackChain.listenerCount c "error" ≠ 0%nat →
   (∀ nextItem,
      FallbackChain.items c !! S i = Some nextItem →
      at_index i (FallbackChain.execute c request).1 =
        probe_actions item ++
        [CallExecute;
         Emit (EvError (name item) (asError x));
         CallOnFallback (FallbackChain.onFallback (FallbackChain.options c))
                        (name item) (name nextItem);
         Emit (EvFallback (name item) (name nextItem))]) ∧
   (S i = List.length (FallbackChain.items c) →
      at_index i (FallbackChain.execute c request).1 =
        probe_actions item ++
        [CallExecute; Emit (EvError (name item) (asError x))]) ∧
   (FallbackChain.continueOnError (FallbackChain.options c) = false →
      (FallbackChain.execute c request).2 = Throws (ThrowError (asError x)) ∧
      ∀ j b, (j, b) ∈ (FallbackChain.execute c request).1 → (j ≤ i)%nat) ∧
   (FallbackChain.continueOnError (FallbackChain.options c) = true →
      ∀ lastError,
        FallbackChain.loop c request i (drop i (FallbackChain.items c)) lastError =
          (tag i (probe_actions item ++
                  [CallExecute; Emit (EvError (name item) (asError x))] ++
                  fallback_actions c i item) ++
             (FallbackChain.loop c request (S i)
                (drop (S i) (FallbackChain.items c)) (Some (asError x))).1,
           (FallbackChain.loop c request (S i)
              (drop (S i) (FallbackChain.items c)) (Some (asError x))).2))).
Proof.
  intros Hk He Hin Hr.
  pose proof (called_is_healthy _ _ _ _ Hk Hin) as Hh.
  destruct (call_fails _ _ _ _ _ _ _ Hk He Hin Hr) as (Hat & Hunheard & Hheard).
  split.
  - intros Hl. rewrite bool_decide_eq_true_2 in Hat by done.
    destruct (Hunheard Hl) as [Hc Hlast]. by split_and!.
  - intros Hl. rewrite bool_decide_eq_false_2 in Hat by done.
    rewrite Hat. unfold fallback_actions. split_and!.
    + by intros nextItem ->.
    + intros Hlast. by rewrite (lookup_ge_None_2 _ (S i)) by lia.
    + by apply Hheard.
    + intros Hc lastError. rewrite (drop_S _ _ _ Hk).
      pose proof (body_failure_heard c request i item lastError fn t x Hl Hh He Hr)
        as Hb. rewrite Hc in Hb.
      rewrite (loop_continue _ _ _ _ _ _ (Some (asError x))) by (by rewrite Hb).
      by rewrite Hb.
Qed.

(** X31.  What a probe that was called does to the call.  A probe that
    answers [false] is absorbed: the iteration logs the ['skipped']
    notification and the loop goes on at the next index.  A probe that
    rejects is not: the [await] of the probe stands outside the [try], so
    [execute] fails with what the probe rejected with, the iteration logs
    no notification, and no later provider is health-checked or called.  A
    probe that never settles leaves [execute] pending. *)
Theorem probe_rejection_reaches_the_caller c request i item p :
  FallbackChain.items c !! i = Some item →
  healthCheck item = Some p →
  (i, CallHealthCheck) ∈ (FallbackChain.execute c request).1 →
  (∀ t, p = SettlesAt t (Fulfilled false) →
     at_index i (FallbackChain.execute c request).1 =
       [CallHealthCheck; Emit (EvSkipped (name item) "unhealthy")] ∧
     ∀ lastError,
       FallbackChain.loop c request i (drop i (FallbackChain.items c)) lastError =
         (tag i [CallHealthCheck; Emit (EvSkipped (name item) "unhealthy")] ++
            (FallbackChain.loop c request (S i)
               (drop (S i) (FallbackChain.items c)) lastError).1,
          (FallbackChain.loop c request (S i)
               (drop (S i) (FallbackChain.items c)) lastError).2)) ∧
  (∀ t x, p = SettlesAt t (Rejected x) →
     (FallbackChain.execute c request).2 = Throws x ∧
     at_index i (FallbackChain.execute c request).1 = [CallHealthCheck] ∧
     ∀ j b, (j, b) ∈ (FallbackChain.execute c request).1 → (j ≤ i)%nat) ∧
  (p = Pending →
     (FallbackChain.execute c request).2 = Never ∧
     at_index i (FallbackChain.execute c request).1 = [CallHealthCheck] ∧
     ∀ j b, (j, b) ∈ (FallbackChain.execute c request).1 → (j ≤ i)%nat).
Proof.
  intros Hk Hp Hin.
  destruct (execute_inversion _ _ _ _ _ Hk Hin) as (e & Hat & Hstop).
  split_and!.
  - intros t ->. split.
    + rewrite (body_unhealthy _ _ _ _ _ _ Hp) in Hat. by apply tag_inj in Hat.
    + intros lastError. rewrite (drop_S _ _ _ Hk).
      rewrite (loop_continue _ _ _ _ _ _ lastError);
        by rewrite (body_unhealthy _ _ _ _ _ _ Hp).
  - intros t x ->. rewrite (body_probe_rejects _ _ _ _ _ _ _ Hp) in Hat, Hstop.
    apply tag_inj in Hat. destruct (Hstop (Throws x)); done.
  - intros ->. rewrite (body_probe_pending _ _ _ _ _ Hp) in Hat, Hstop.
    apply tag_inj in Hat. destruct (Hstop Never); done.
Qed.

End Failure.

Lemma failed_operation_outcome_witness :
  at_index 0 (FallbackChain.execute Examples.chain_BC "request").1 =
    [CallExecute;
     Emit (EvError "B" (mkError "boom"));
     CallOnFallback NoOp "B" "C";
     Emit (EvFallback "B" "C")] ∧
  at_index 1 (FallbackChain.execute Examples.chain_BC "request").1 =
    [CallHealthCheck; Emit (EvSkipped "C" "unhealthy")].
Proof.
  split; [|reflexivity].
  destruct (failed_operation_outcome Examples.chain_BC "request" 0
              Examples.B (λ _, SettlesAt 5 (Rejected (ThrowError (mkError "boom")))) 5
              (ThrowError (mkError "boom"))) as [_ Hheard];
    [reflexivity..| |reflexivity|].
  - vm_compute. repeat constructor.
  - destruct Hheard as (Hnext & _); [by vm_compute|].
    exact (Hnext Examples.C_after eq_refl).
Defined.

Lemma probe_rejection_reaches_the_caller_witness :
  (FallbackChain.execute Examples.chain_BH "request").2 = Throws (ThrowOther "down") ∧
  at_index 1 (FallbackChain.execute Examples.chain_BH "request").1 = [CallHealthCheck].
Proof.
  destruct (probe_rejection_reaches_the_caller Examples.chain_BH "request" 1
              Examples.H (SettlesAt 1 (Rejected (ThrowOther "down"))))
    as (_ & Hrej & _); [reflexivity..| |].
  - vm_compute. repeat constructor.
  - destruct (Hrej 1 (ThrowOther "down") eq_refl) as (Hc & Hat & _). by split.
Defined.

(** ** Exhaustion *)

Section Exhaustion.
Context {Req Res : Type}.
Implicit Types (c : FallbackChain.t Req Res) (item : Chainable Req Res).

(** The loop from [i] on, on a chain that has a listener for the ['error']
    event, when every probe it calls answers and no operation it calls
    succeeds: it fails with the error of the last
    provider whose operation it called, or, if it called none, with the
    error recorded before, or the generic one. *)
Lemma loop_exhausted c request rest i lastError :
  FallbackChain.listenerCount c "error" ≠ 0%nat →
  (∀ k item p,
     rest !! k = Some item → healthCheck item = Some p →
     ((i + k)%nat, CallHealthCheck) ∈ (FallbackChain.loop c request i rest lastError).1 →
     ∃ t b, p = SettlesAt t (Fulfilled b)) →
  (∀ k item fn t v,
     rest !! k = Some item → execute item = Some fn →
     ((i + k)%nat, CallExecute) ∈ (FallbackChain.loop c request i rest lastError).1 →
     FallbackChain.executeWithTimeout c fn request ≠ SettlesAt t (Fulfilled v)) →
  (∃ k item fn t x,
     rest !! k = Some item ∧ execute item = Some fn ∧
     ((i + k)%nat, CallExecute) ∈ (FallbackChain.loop c request i rest lastError).1 ∧
     FallbackChain.executeWithTimeout c fn request = SettlesAt t (Rejected x) ∧
     (FallbackChain.loop c request i rest lastError).2 = Throws (ThrowError (asError x)) ∧
     ∀ j, (j, CallExecute) ∈ (FallbackChain.loop c request i rest lastError).1 →
          (j ≤ i + k)%nat) ∨
  ((∀ j, (j, CallExecute) ∉ (FallbackChain.loop c request i rest lastError).1) ∧
   (FallbackChain.loop c request i rest lastError).2 =
     Throws (ThrowError (default exhausted lastError))).
Proof.
  intros Hlisten. revert i lastError.
  induction rest as [|item rest IH]; intros i lastError Hprobe Hnone.
  { right. split; [by intros j ?%elem_of_nil|]. by destruct lastError. }
  (* an iteration that logs [l] and goes on with [e] *)
  assert (Hcont : ∀ l e,
    FallbackChain.body c request i item lastError = (tag i l, Normal (Continue e)) →
    FallbackChain.loop c request i (item :: rest) lastError =
      (tag i l ++ (FallbackChain.loop c request (S i) rest e).1,
       (FallbackChain.loop c request (S i) rest e).2) ∧
    ((∃ k item' fn t x,
       (item :: rest) !! k = Some item' ∧ execute item' = Some fn ∧
       ((i + k)%nat, CallExecute) ∈ (FallbackChain.loop c request i (item :: rest) lastError).1 ∧
       FallbackChain.executeWithTimeout c fn request = SettlesAt t (Rejected x) ∧
       (FallbackChain.loop c request i (item :: rest) lastError).2 =
         Throws (ThrowError (asError x)) ∧
       ∀ j, (j, CallExecute) ∈ (FallbackChain.loop c request i (item :: rest) lastError).1 →
            (j ≤ i + k)%nat) ∨
     ((∀ j, (j, CallExecute) ∉ (FallbackChain.loop c request (S i) rest e).1) ∧
      (FallbackChain.loop c request (S i) rest e).2 =
        Throws (ThrowError (default exhausted e))))).
  { intros l e Hb.
    assert (Heq : FallbackChain.loop c request i (item :: rest) lastError =
      (tag i l ++ (FallbackChain.loop c request (S i) rest e).1,
       (FallbackChain.loop c request (S i) rest e).2)).
    { rewrite (loop_continue _ _ _ _ rest _ e) by (by rewrite Hb). by rewrite Hb. }
    split; [done|]. rewrite Heq in Hprobe, Hnone |- *. simpl in Hprobe, Hnone |- *.
    destruct (IH (S i) e) as [(k & item' & fn & t & x & Hk & He & Hin & Hr & Hc & Hlast)|?];
      [| |left|by right].
    - intros k item' p Hk Hp Hin. apply (Hprobe (S k) item' p Hk Hp).
      apply elem_of_app. right. by replace (i + S k)%nat with (S i + k)%nat by lia.
    - intros k item' fn t v Hk He Hin. apply (Hnone (S k) item' fn t v Hk He).
      apply elem_of_app. right. by replace (i + S k)%nat with (S i + k)%nat by lia.
    - exists (S k), item', fn, t, x.
      replace (i + S k)%nat with (S i + k)%nat by lia.
      split_and!; [done..| |done|done|].
      + apply elem_of_app. by right.
      + intros j [[-> Hj]%elem_of_tag|Hj]%elem_of_app; [lia|by apply Hlast]. }
  (* when moreover [l] has no call of the operation and [e] is the error
     recorded before *)
  assert (Hskip : ∀ l,
    CallExecute ∉ l →
    FallbackChain.body c request i item lastError = (tag i l, Normal (Continue lastError)) →
    (∃ k item' fn t x,
       (item :: rest) !! k = Some item' ∧ execute item' = Some fn ∧
       ((i + k)%nat, CallExecute) ∈ (FallbackChain.loop c request i (item :: rest) lastError).1 ∧
       FallbackChain.executeWithTimeout c fn request = SettlesAt t (Rejected x) ∧
       (FallbackChain.loop c request i (item :: rest) lastError).2 =
         Throws (ThrowError (asError x)) ∧
       ∀ j, (j, CallExecute) ∈ (FallbackChain.loop c request i (item :: rest) lastError).1 →
            (j ≤ i + k)%nat) ∨
    ((∀ j, (j, CallExecute) ∉ (FallbackChain.loop c request i (item :: rest) lastError).1) ∧
     (FallbackChain.loop c request i (item :: rest) lastError).2 =
       Throws (ThrowError (default exhausted lastError)))).
  { intros l Hl Hb. destruct (Hcont l lastError Hb) as [Heq [?|[Hno Hc]]]; [by left|].
    right. rewrite Heq. simpl. split; [|done].
    intros j [[-> Hj]%elem_of_tag|Hj]%elem_of_app; [done|by eapply Hno]. }
  destruct (classify c request item) as [t x H|H|t H|Hh He|fn t v Hh He Hr|fn t x Hh He Hr].
  - destruct (Hprobe 0%nat item _ eq_refl H) as (u & b & [=]).
    rewrite (loop_stop _ _ _ _ _ _ (Throws x)), Nat.add_0_r
      by (by rewrite (body_probe_rejects _ _ _ _ _ _ _ H)).
    rewrite (body_probe_rejects _ _ _ _ _ _ _ H). simpl. by left.
  - destruct (Hprobe 0%nat item _ eq_refl H) as (u & b & [=]).
    rewrite (loop_stop _ _ _ _ _ _ Never), Nat.add_0_r
      by (by rewrite (body_probe_pending _ _ _ _ _ H)).
    rewrite (body_probe_pending _ _ _ _ _ H). simpl. by left.
  - apply (Hskip [CallHealthCheck; Emit (EvSkipped (name item) "unhealthy")]).
    + intros Hin. absent_from_list Hin.
    + by apply body_unhealthy with t.
  - apply (Hskip (probe_actions item)).
    + unfold probe_actions. intros Hin. destruct (healthCheck item); absent_from_list Hin.
    + by apply body_inert.
  - destruct (Hnone 0%nat item fn t v eq_refl He); [|done].
    rewrite (loop_stop _ _ _ _ _ _ (Normal v)), Nat.add_0_r
      by (by rewrite (body_success _ _ _ _ _ _ _ _ Hh He Hr)).
    rewrite (body_success _ _ _ _ _ _ _ _ Hh He Hr). simpl.
    apply elem_of_tag. split; [done|]. apply elem_of_app. right. by left.
  - left.
    pose proof (body_failure_heard _ _ i _ lastError _ _ _ Hlisten Hh He Hr) as Hb.
    assert (Hcalled : CallExecute ∈ probe_actions item ++
              [CallExecute; Emit (EvError (name item) (asError x))] ++
              fallback_actions c i item).
    { apply elem_of_app. right. by left. }
    destruct (FallbackChain.continueOnError (FallbackChain.options c)).
    + destruct (Hcont _ _ Hb) as [Heq [?|[Hno Hc]]]; [done|].
      exists 0%nat, item, fn, t, x. rewrite Nat.add_0_r, Heq. simpl.
      split_and!; [done..| |done|done|].
      * apply elem_of_app. left. by apply elem_of_tag.
      * intros j [[-> _]%elem_of_tag|Hj]%elem_of_app; [done|by apply Hno in Hj].
    + exists 0%nat, item, fn, t, x. rewrite Nat.add_0_r.
      rewrite (loop_stop _ _ _ _ _ _ (Throws (ThrowError (asError x)))) by (by rewrite Hb).
      rewrite Hb. simpl. split_and!; [done..|by apply elem_of_tag|done|done|].
      by intros j [-> _]%elem_of_tag.
Qed.

(** X29.  On a chain that has a listener for the ['error'] event, when
    every probe that is called answers [true] or [false] and no operation
    that is called succeeds, [execute] fails: with the error of the last
    provider whose operation it called, if it called any, and with the
    generic error otherwise. *)
Theorem exhausted_listening_chain_fails_with_last_failure c request :
  FallbackChain.listenerCount c "error" ≠ 0%nat →
  (∀ i item p,
     FallbackChain.items c !! i = Some item → healthCheck item = Some p →
     (i, CallHealthCheck) ∈ (FallbackChain.execute c request).1 →
     ∃ t b, p = SettlesAt t (Fulfilled b)) →
  (∀ i item fn t v,
     FallbackChain.items c !! i = Some item → execute item = Some fn →
     (i, CallExecute) ∈ (FallbackChain.execute c request).1 →
     FallbackChain.executeWithTimeout c fn request ≠ SettlesAt t (Fulfilled v)) →
  ((∃ i, (i, CallExecute) ∈ (FallbackChain.execute c request).1) →
   ∃ i item fn t x,
     FallbackChain.items c !! i = Some item ∧ execute item = Some fn ∧
     (i, CallExecute) ∈ (FallbackChain.execute c request).1 ∧
     FallbackChain.executeWithTimeout c fn request = SettlesAt t (Rejected x) ∧
     (FallbackChain.execute c request).2 = Throws (ThrowError (asError x)) ∧
     ∀ j, (j, CallExecute) ∈ (FallbackChain.execute c request).1 → (j ≤ i)%nat) ∧
  ((∀ i, (i, CallExecute) ∉ (FallbackChain.execute c request).1) →
   (FallbackChain.execute c request).2 = Throws (ThrowError exhausted)).
Proof.
  intros Hl Hprobe Hnone. unfold FallbackChain.execute in *.
  destruct (loop_exhausted c request (FallbackChain.items c) 0 None)
    as [(k & item & fn & t & x & Hk & He & Hin & Hr & Hc & Hlast)|[Hno Hc]];
    [done..| |].
  - split; [intros _; by exists k, item, fn, t, x|].
    intros Hno. by apply Hno in Hin.
  - split; [|done]. intros [i Hin]. by apply Hno in Hin.
Qed.

End Exhaustion.

Lemma exhausted_listening_chain_fails_with_last_failure_witness :
  ∃ i item fn t x,
    FallbackChain.items Examples.chain_BC !! i = Some item ∧
    execute item = Some fn ∧
    (i, CallExecute) ∈ (FallbackChain.execute Examples.chain_BC "request").1 ∧
    FallbackChain.executeWithTimeout Examples.chain_BC fn "request" =
      SettlesAt t (Rejected x) ∧
    (FallbackChain.execute Examples.chain_BC "request").2 =
      Throws (ThrowError (asError x)) ∧
    ∀ j, (j, CallExecute) ∈ (FallbackChain.execute Examples.chain_BC "request").1 →
         (j ≤ i)%nat.
Proof.
  refine (proj1 (exhausted_listening_chain_fails_with_last_failure
                   Examples.chain_BC "request" _ _ _) _).
  - by vm_compute.
  - intros i item p Hk Hp Hin.
    change (FallbackChain.items Examples.chain_BC)
      with [Examples.B; Examples.C_after] in Hk.
    destruct i as [|[|i]]; simplify_eq/=; eauto.
  - intros i item fn t v Hk He Hin.
    change (FallbackChain.items Examples.chain_BC)
      with [Examples.B; Examples.C_after] in Hk.
    destruct i as [|[|i]]; simplify_eq/=.
    + unfold Examples.rejects in He. simplify_eq. vm_compute. by intros [=].
    + absent_from_list Hin.
  - exists 0%nat. vm_compute. repeat constructor.
Defined.

(** ** The timeout *)

Lemma setTimeout_range delay : 1 ≤ setTimeout delay ≤ 2147483647.
Proof. destruct delay as [d|]; simpl; [case_bool_decide|]; lia. Qed.

Section Timeout.
Context {Req Res : Type}.
Implicit Types (c : FallbackChain.t Req Res) (item : Chainable Req Res).

Lemma body_same c c' request i item item' lastError :
  FallbackChain.options c = FallbackChain.options c' →
  FallbackChain.listeners c = FallbackChain.listeners c' →
  List.length (FallbackChain.items c) = List.length (FallbackChain.items c') →
  name <$> FallbackChain.items c !! S i = name <$> FallbackChain.items c' !! S i →
  same_attempt c c' request item item' →
  FallbackChain.body c request i item lastError =
  FallbackChain.body c' request i item' lastError.
Proof.
  intros Ho Hl Hlen Hnext (Hn & Hp & He).
  unfold FallbackChain.body, FallbackChain.emit, FallbackChain.listenerCount.
  rewrite <-Hn, <-Hp, <-Ho, <-Hl, <-Hlen. replace (i + 1)%nat with (S i) by lia.
  destruct (FallbackChain.items c !! S i) as [n1|],
    (FallbackChain.items c' !! S i) as [n2|]; try discriminate Hnext.
  - injection Hnext as Hnext. cbv beta iota. rewrite <-Hnext.
    destruct (execute item) as [fn|], (execute item') as [fn'|]; try done.
    by rewrite <-He.
  - destruct (execute item) as [fn|], (execute item') as [fn'|]; try done.
    by rewrite <-He.
Qed.

Lemma loop_same c c' request rest rest' i lastError :
  FallbackChain.options c = FallbackChain.options c' →
  FallbackChain.listeners c = FallbackChain.listeners c' →
  List.length (FallbackChain.items c) = List.length (FallbackChain.items c') →
  (∀ j, name <$> FallbackChain.items c !! j = name <$> FallbackChain.items c' !! j) →
  Forall2 (same_attempt c c' request) rest rest' →
  FallbackChain.loop c request i rest lastError =
  FallbackChain.loop c' request i rest' lastError.
Proof.
  intros Ho Hl Hlen Hnames Hall. revert i lastError.
  induction Hall as [|item item' rest rest' Hsame _ IH]; intros i lastError; [done|].
  simpl. rewrite (body_same c c' request i item item' lastError) by done.
  destruct (FallbackChain.body c' request i item' lastError) as [w [[e|v]|x|]];
    simpl; try done.
  by rewrite IH.
Qed.

Lemma same_attempt_refl c c' request item :
  FallbackChain.options c = FallbackChain.options c' →
  same_attempt c c' request item item.
Proof.
  intros Ho. split_and!; [done..|].
  destruct (execute item) as [fn|]; [|done].
  unfold FallbackChain.executeWithTimeout. by rewrite Ho.
Qed.

(** X30.  [executeWithTimeout] races the operation against a timer set to
    [timeoutPerItem]: an operation that settles no later than the timer
    decides the race, as it settled; one that never settles, or settles
    after the timer, loses it at the instant of the timer with an [Error]
    whose message is "Timeout".  The call then runs exactly as if the
    provider's operation had rejected with that error: the log and the
    completion of [execute] are those of the chain in which the operation
    of the provider is replaced by one that rejects with it, every probe
    answering as it does here. *)
Theorem late_operation_counts_as_rejection c request i item fn :
  FallbackChain.items c !! i = Some item →
  execute item = Some fn →
  (∀ t s,
     fn request = SettlesAt t s →
     t ≤ setTimeout (FallbackChain.timeoutPerItem (FallbackChain.options c)) →
     FallbackChain.executeWithTimeout c fn request = SettlesAt t s) ∧
  ((fn request = Pending ∨
    ∃ t s, fn request = SettlesAt t s ∧
           setTimeout (FallbackChain.timeoutPerItem (FallbackChain.options c)) < t) →
   FallbackChain.executeWithTimeout c fn request =
     SettlesAt (setTimeout (FallbackChain.timeoutPerItem (FallbackChain.options c)))
               (Rejected (ThrowError (mkError "Timeout"))) ∧
   FallbackChain.execute c request =
     FallbackChain.execute
       (FallbackChain.mk
          (<[i := with_execute item rejects_with_Timeout]> (FallbackChain.items c))
          (FallbackChain.options c)
          (FallbackChain.listeners c))
       request).
Proof.
  intros Hk He. split.
  { intros t s Hfn Hle. unfold FallbackChain.executeWithTimeout. simpl.
    rewrite Hfn. simpl. by rewrite bool_decide_eq_true_2. }
  intros Hlate.
  assert (Hr : FallbackChain.executeWithTimeout c fn request =
    SettlesAt (setTimeout (FallbackChain.timeoutPerItem (FallbackChain.options c)))
              (Rejected (ThrowError (mkError "Timeout")))).
  { unfold FallbackChain.executeWithTimeout. simpl.
    destruct Hlate as [->|(t & s & -> & Hlt)]; simpl; [done|].
    by rewrite bool_decide_eq_false_2 by lia. }
  split; [done|].
  set (c' := FallbackChain.mk
               (<[i := with_execute item rejects_with_Timeout]> (FallbackChain.items c))
               (FallbackChain.options c) (FallbackChain.listeners c)).
  unfold FallbackChain.execute.
  change (FallbackChain.items c')
    with (<[i := with_execute item rejects_with_Timeout]> (FallbackChain.items c)).
  apply loop_same; [done|done|by apply eq_sym, length_insert| |].
  - intros j. simpl. rewrite <-!list_lookup_fmap, list_fmap_insert. simpl.
    by rewrite list_insert_id by (by rewrite list_lookup_fmap, Hk).
  - rewrite <-(list_insert_id (FallbackChain.items c) i item) at 1 by done.
    apply Forall2_insert.
    + apply Forall_Forall2_diag, Forall_forall. intros x _.
      by apply same_attempt_refl.
    + split_and!; [done..|]. simpl. rewrite He, Hr.
      unfold FallbackChain.executeWithTimeout, rejects_with_Timeout. simpl.
      pose proof (setTimeout_range
        (FallbackChain.timeoutPerItem (FallbackChain.options c))).
      by rewrite bool_decide_eq_true_2 by lia.
Qed.

End Timeout.

Lemma late_operation_counts_as_rejection_witness :
  FallbackChain.executeWithTimeout Examples.chain_DA
      (λ _, SettlesAt 500 (Fulfilled "d")) "request" =
    SettlesAt 100 (Rejected (ThrowError (mkError "Timeout"))) ∧
  FallbackChain.execute Examples.chain_DA "request" =
    ([(0%nat, CallExecute);
      (0%nat, Emit (EvError "D" (mkError "Timeout")));
      (0%nat, CallOnFallback NoOp "D" "A");
      (0%nat, Emit (EvFallback "D" "A"));
      (1%nat, CallExecute);
      (1%nat, Emit (EvSuccess "A" 1))],
     Normal "a").
Proof.
  destruct (late_operation_counts_as_rejection Examples.chain_DA "request" 0
              Examples.D (λ _, SettlesAt 500 (Fulfilled "d")))
    as (_ & Hlate); [reflexivity..|].
  destruct Hlate as [Hr Hsame].
  - right. exists 500, (Fulfilled "d"). split; [reflexivity|]. by vm_compute.
  - split; [exact Hr|]. rewrite Hsame. reflexivity.
Defined.

(** ** Calls that the code does not carry through

    Two places of [execute] stop a call that its documentation ("tries each
    item until one succeeds", "Skip if health check fails", "Trigger
    fallback if not last item") says goes on.  The ['error'] notification
    is made before the fallback is prepared and before [lastError] is
    thrown again; on a chain that has no listener for that event, which is
    how a chain is made and how the README uses it, the emitter throws
    there.  And the probe is awaited outside the [try], so a probe that
    rejects ends the call.  The calls below are run on such chains. *)

(** C2.  No provider succeeds in these two calls, and [execute] does not
    fail with the last recorded failure.  On the chain [B] without a
    listener, [B] is called and fails with "boom"; [execute] fails with the
    emitter's error, not with "boom".  On the chain [B; H] with a listener,
    [B] fails with "boom" and the probe of [H] rejects; [execute] fails
    with what the probe rejected with. *)
Lemma last_failure_is_not_surfaced :
  FallbackChain.listenerCount Examples.chain_B_silent "error" = 0%nat ∧
  FallbackChain.execute Examples.chain_B_silent "request" =
    ([(0%nat, CallExecute);
      (0%nat, Emit (EvError "B" (mkError "boom")))],
     Throws (ThrowError (ERR_UNHANDLED_ERROR "B" (mkError "boom")))) ∧
  FallbackChain.execute Examples.chain_BH "request" =
    ([(0%nat, CallExecute);
      (0%nat, Emit (EvError "B" (mkError "boom")));
      (0%nat, CallOnFallback NoOp "B" "H");
      (0%nat, Emit (EvFallback "B" "H"));
      (1%nat, CallHealthCheck)],
     Throws (ThrowOther "down")).
Proof. split_and!; reflexivity. Qed.

(** C3.  On the chain [B; A] made with [continueOnError = false] and
    without a listener, [B] is called and fails with "boom".  The call ends
    there and [A] is not tried, but [execute] fails with the emitter's
    error: the [throw lastError] that would surface "boom" is not
    reached. *)
Lemma unheard_failure_is_not_rethrown :
  FallbackChain.continueOnError (FallbackChain.options Examples.chain_BA_stop_silent)
    = false ∧
  FallbackChain.listenerCount Examples.chain_BA_stop_silent "error" = 0%nat ∧
  FallbackChain.items Examples.chain_BA_stop_silent = [Examples.B; Examples.A] ∧
  FallbackChain.execute Examples.chain_BA_stop_silent "request" =
    ([(0%nat, CallExecute);
      (0%nat, Emit (EvError "B" (mkError "boom")))],
     Throws (ThrowError (ERR_UNHANDLED_ERROR "B" (mkError "boom")))).
Proof. split_and!; reflexivity. Qed.

(** C4.  On the chain [D; A] made with a timeout of 100 ms and without a
    listener, the operation of [D], which needs 500 ms, loses the race at
    100 ms with the "Timeout" error.  The ['error'] notification is made
    with that error, and the call ends there with the emitter's error:
    [onFallback] is not called, no ['fallback'] notification is made, and
    [A], which would succeed, is not tried. *)
Lemma unheard_timeout_skips_the_fallback :
  FallbackChain.listenerCount Examples.chain_DA_silent "error" = 0%nat ∧
  FallbackChain.items Examples.chain_DA_silent = [Examples.D; Examples.A] ∧
  FallbackChain.executeWithTimeout Examples.chain_DA_silent
      (λ _, SettlesAt 500 (Fulfilled "d")) "request" =
    SettlesAt 100 (Rejected (ThrowError (mkError "Timeout"))) ∧
  FallbackChain.execute Examples.chain_DA_silent "request" =
    ([(0%nat, CallExecute);
      (0%nat, Emit (EvError "D" (mkError "Timeout")))],
     Throws (ThrowError (ERR_UNHANDLED_ERROR "D" (mkError "Timeout")))).
Proof. split_and!; reflexivity. Qed.

(** C5.  On the chain [B; A] without a listener, [B] is called and fails;
    it is not the last provider, and yet [onFallback] is not called and no
    ['fallback'] notification is made: the call ends in the ['error']
    notification.  With a listener the same providers give the fallback
    from [B] to [A]. *)
Lemma unheard_failure_skips_the_fallback :
  FallbackChain.listenerCount Examples.chain_BA_silent "error" = 0%nat ∧
  FallbackChain.items Examples.chain_BA_silent = [Examples.B; Examples.A] ∧
  FallbackChain.execute Examples.chain_BA_silent "request" =
    ([(0%nat, CallExecute);
      (0%nat, Emit (EvError "B" (mkError "boom")))],
     Throws (ThrowError (ERR_UNHANDLED_ERROR "B" (mkError "boom")))) ∧
  FallbackChain.execute Examples.chain_BA "request" =
    ([(0%nat, CallExecute);
      (0%nat, Emit (EvError "B" (mkError "boom")));
      (0%nat, CallOnFallback NoOp "B" "A");
      (0%nat, Emit (EvFallback "B" "A"));
      (1%nat, CallExecute);
      (1%nat, Emit (EvSuccess "A" 1))],
     Normal "a").
Proof. split_and!; reflexivity. Qed.

(** C7.  On the chain [H; A], the probe of [H] rejects with "down".  The
    rejection is not absorbed: [execute] fails with it, no ['skipped']
    notification is made, and [A], which would succeed, is not tried. *)
Lemma probe_rejection_is_not_absorbed :
  healthCheck Examples.H = Some (SettlesAt 1 (Rejected (ThrowOther "down"))) ∧
  FallbackChain.items Examples.chain_HA = [Examples.H_first; Examples.A] ∧
  FallbackChain.execute Examples.chain_H "request" =
    ([(0%nat, CallHealthCheck)], Throws (ThrowOther "down")) ∧
  FallbackChain.execute Examples.chain_HA "request" =
    ([(0%nat, CallHealthCheck)], Throws (ThrowOther "down")).
Proof. split_and!; reflexivity. Qed.

(** ** The constructor *)

Section Constructor.
Context {Req Res : Type}.

(** C10.  A [timeoutPerItem] of 0, like every number that is not truthy and
    like a missing one, gives the chain a timeout of 30000; a
    [continueOnError] of [false] is kept. *)
Theorem constructor_defaults
    (t : option number) (co : option bool) (cb : option Callback) :
  FallbackChain.timeoutPerItem (FallbackChain.options
    (@FallbackChain.constructor Req Res
       (FallbackChainOptions.mk (Some (Num 0)) co cb))) = Num 30000 ∧
  (∀ n, truthy n = false →
     FallbackChain.timeoutPerItem (FallbackChain.options
       (@FallbackChain.constructor Req Res
          (FallbackChainOptions.mk (Some n) co cb))) = Num 30000) ∧
  (∀ n, truthy n = true →
     FallbackChain.timeoutPerItem (FallbackChain.options
       (@FallbackChain.constructor Req Res
          (FallbackChainOptions.mk (Some n) co cb))) = n) ∧
  FallbackChain.continueOnError (FallbackChain.options
    (@FallbackChain.constructor Req Res
       (FallbackChainOptions.mk t (Some false) cb))) = false ∧
  FallbackChain.continueOnError (FallbackChain.options
    (@FallbackChain.constructor Req Res
       (FallbackChainOptions.mk t None cb))) = true.
Proof.
  split_and!; [done| | |done|done]; intros n Hn; simpl; by rewrite Hn.
Qed.

(** The numbers that are not truthy. *)
Lemma truthy_false n : truthy n = false ↔ n = Num 0 ∨ n = NaN.
Proof.
  destruct n as [z|]; simpl.
  - case_bool_decide as Hz; simpl; split.
    + intros _. left. by f_equal.
    + done.
    + done.
    + intros [[= ->]|[=]]. done.
  - split; [by right|done].
Qed.

End Constructor.

(** ** Sorting *)

Section Sorting.
Context {A : Type} (key : A → Z).

Local Abbreviation cmp := (λ a b : A, key a - key b).
Local Abbreviation le := (λ a b : A, key a ≤ key b).

Lemma elem_of_sort_insert x y l : y ∈ sort_insert cmp x l ↔ y = x ∨ y ∈ l.
Proof.
  induction l as [|z l IH]; simpl.
  - rewrite list_elem_of_singleton, elem_of_nil. tauto.
  - case_bool_decide; rewrite !elem_of_cons; [tauto|]. rewrite IH. tauto.
Qed.

Lemma sort_insert_perm x l : sort_insert cmp x l ≡ₚ x :: l.
Proof.
  induction l as [|z l IH]; simpl; [done|].
  case_bool_decide; [done|]. by rewrite IH, Permutation_swap.
Qed.

Lemma Array_sort_perm l : Array_sort cmp l ≡ₚ l.
Proof.
  induction l as [|x l IH]; simpl; [done|].
  by rewrite sort_insert_perm, IH.
Qed.

Lemma sort_insert_sorted x l :
  StronglySorted le l → StronglySorted le (sort_insert cmp x l).
Proof.
  induction 1 as [|z l Hs IH Hz]; simpl.
  - by repeat constructor.
  - case_bool_decide as Hxz.
    + constructor; [by constructor|]. constructor; [simpl in *; lia|].
      eapply Forall_impl; [exact Hz|]. simpl in *. intros; lia.
    + constructor; [done|]. apply Forall_forall.
      intros y [->|Hy]%elem_of_sort_insert.
      * simpl in *. lia.
      * by eapply Forall_forall in Hz.
Qed.

Lemma Array_sort_sorted l : StronglySorted le (Array_sort cmp l).
Proof.
  induction l as [|x l IH]; simpl; [constructor|]. by apply sort_insert_sorted.
Qed.

(** Stability: among the elements of one key the order is kept. *)
Lemma filter_sort_insert p x l :
  filter (λ a, key a = p) (sort_insert cmp x l) = filter (λ a, key a = p) (x :: l).
Proof.
  induction l as [|z l IH]; simpl; [done|].
  case_bool_decide as Hxz; [done|].
  rewrite (filter_cons _ z), IH, !(filter_cons _ x), (filter_cons _ z).
  repeat case_decide; done || lia.
Qed.

Lemma filter_Array_sort p l :
  filter (λ a, key a = p) (Array_sort cmp l) = filter (λ a, key a = p) l.
Proof.
  induction l as [|x l IH]; simpl; [done|].
  by rewrite filter_sort_insert, !(filter_cons _ x), IH.
Qed.

Lemma StronglySorted_filter (P : A → Prop) `{!∀ a, Decision (P a)} l :
  StronglySorted le l → StronglySorted le (filter P l).
Proof.
  induction 1 as [|z l Hs IH Hz]; [constructor|].
  rewrite filter_cons. case_decide; [|done].
  constructor; [done|]. apply Forall_forall.
  intros y [_ Hy]%list_elem_of_filter. by eapply Forall_forall in Hz.
Qed.

End Sorting.

Lemma filter_comm {A : Type} (P Q : A → Prop)
    `{!∀ a, Decision (P a), !∀ a, Decision (Q a)} (l : list A) :
  filter P (filter Q l) = filter Q (filter P l).
Proof.
  induction l as [|x l IH]; [done|].
  rewrite !(filter_cons _ x).
  destruct (decide (Q x)), (decide (P x));
    rewrite ?filter_cons_True, ?filter_cons_False by done; by rewrite IH.
Qed.

(** ** Registration *)

Section Registration.
Context {Req Res : Type}.
Implicit Types (c : FallbackChain.t Req Res) (h : list (Chainable Req Res)).

Lemma listing_of_mutate c h m :
  listing_of c h → listing_of (mutate c m) (record_mutation h m).
Proof.
  intros (Hs & Hperm & Hst). destruct m as [item|n]; simpl.
  - split_and!.
    + apply (Array_sort_sorted priority).
    + unfold FallbackChain.getItems in *. simpl.
      by rewrite (Array_sort_perm priority), Hperm.
    + intros p. unfold FallbackChain.getItems in *. simpl.
      by rewrite (filter_Array_sort priority), !filter_app, Hst.
  - split_and!.
    + by apply (StronglySorted_filter priority).
    + unfold FallbackChain.getItems in *. simpl. by rewrite Hperm.
    + intros p. unfold FallbackChain.getItems in *. simpl.
      by rewrite filter_comm, Hst, filter_comm.
Qed.

Lemma listing_of_foldl c h ms :
  listing_of c h → listing_of (foldl mutate c ms) (foldl record_mutation h ms).
Proof.
  revert c h. induction ms as [|m ms IH]; intros c h Hinv; [done|].
  simpl. by apply IH, listing_of_mutate.
Qed.

(** C8.  After any sequence of [add] and [remove] calls on a new chain, the
    listing is sorted by ascending priority, holds the entries that were
    added and not removed since, and lists the entries of any one priority
    in the order in which they were added. *)
Theorem listing_is_sorted_and_stable
    (o : FallbackChainOptions.t) (ms : list (mutation Req Res)) :
  StronglySorted ascending
    (FallbackChain.getItems (foldl mutate (FallbackChain.constructor o) ms)) ∧
  FallbackChain.getItems (foldl mutate (FallbackChain.constructor o) ms)
    ≡ₚ insertion_order ms ∧
  ∀ p,
    filter (λ item, priority item = p)
      (FallbackChain.getItems (foldl mutate (FallbackChain.constructor o) ms)) =
    filter (λ item, priority item = p) (insertion_order ms).
Proof.
  apply listing_of_foldl. split_and!; [constructor|done..].
Qed.

End Registration.

(** ** The heap *)

Lemma fmap_sort_insert {A B : Type} (f : A → B) (cmp : B → B → Z) (x : A) (k : list A) :
  f <$> sort_insert (λ a b, cmp (f a) (f b)) x k = sort_insert cmp (f x) (f <$> k).
Proof.
  induction k as [|y k IH]; simpl; [done|].
  case_bool_decide; simpl; [done|]. f_equal. exact IH.
Qed.

Lemma fmap_Array_sort {A B : Type} (f : A → B) (cmp : B → B → Z) (l : list A) :
  f <$> Array_sort (λ a b, cmp (f a) (f b)) l = Array_sort cmp (f <$> l).
Proof.
  unfold Array_sort. induction l as [|x l IH]; [done|].
  rewrite fmap_cons. cbn [foldr]. by rewrite fmap_sort_insert, IH.
Qed.

Lemma fmap_filter {A B : Type} (f : A → B) (P : B → Prop)
    `{!∀ b, Decision (P b)} (l : list A) :
  f <$> filter (λ a, P (f a)) l = filter P (f <$> l).
Proof.
  induction l as [|x l IH]; [done|].
  rewrite fmap_cons, (filter_cons _ x), (filter_cons _ (f x)).
  case_decide; [rewrite fmap_cons|]; by rewrite IH.
Qed.

Section HeapProperties.
Context {Req Res : Type}.
Implicit Types (h : Heap.heap Req Res) (c : Heap.chain).

Lemma read_write_array_eq a l h : Heap.read_array (Heap.write_array a l h) a = l.
Proof. unfold Heap.read_array, Heap.write_array. simpl. by rewrite lookup_insert_eq. Qed.

Lemma read_write_array_ne a b l h :
  a ≠ b → Heap.read_array (Heap.write_array a l h) b = Heap.read_array h b.
Proof.
  intros Hne. unfold Heap.read_array, Heap.write_array. simpl.
  by rewrite lookup_insert_ne.
Qed.

Lemma alloc_array_fresh l h a :
  a ∈ dom (Heap.arrays h) → (Heap.alloc_array l h).1 ≠ a.
Proof.
  intros Ha Heq. simpl in Heq. subst a.
  by apply (is_fresh (dom (Heap.arrays h))).
Qed.

(** [add] and [remove] on the heap do to the providers what
    [FallbackChain.add] and [FallbackChain.remove] do. *)
Lemma view_add c o h :
  Heap.view c (Heap.add c o h) = FallbackChain.add (Heap.view c h) (Heap.deref h o).
Proof.
  unfold Heap.view, Heap.providers, Heap.add, FallbackChain.add. simpl.
  rewrite read_write_array_eq. f_equal.
  change (Heap.deref (Heap.write_array ?a ?l h)) with (Heap.deref h).
  by rewrite (fmap_Array_sort (Heap.deref h) (λ a b, priority a - priority b)),
    fmap_app.
Qed.

Lemma view_remove c n h :
  Heap.view (Heap.remove c n h).1 (Heap.remove c n h).2 =
  FallbackChain.remove (Heap.view c h) n.
Proof.
  unfold Heap.view, Heap.providers, Heap.remove, Heap.alloc_array,
    FallbackChain.remove. simpl.
  rewrite read_write_array_eq. f_equal.
  change (Heap.deref (Heap.write_array ?a ?l h)) with (Heap.deref h).
  exact (fmap_filter (Heap.deref h) (λ item, name item ≠ n) _).
Qed.

Lemma write_array_many_other a b ls h :
  a ≠ b →
  Heap.read_array (Heap.write_array_many a ls h) b = Heap.read_array h b ∧
  Heap.objects (Heap.write_array_many a ls h) = Heap.objects h.
Proof.
  intros Hne. revert h. induction ls as [|l ls IH]; intros h; [done|].
  simpl. destruct (IH (Heap.write_array a l h)) as [-> ->].
  by rewrite read_write_array_ne.
Qed.

(** C9.  [getItems] returns a new array: it is not the array of the chain,
    and it holds the entries of the chain in their order.  Whatever the
    caller then writes into it, any number of times, the array of the chain
    keeps its content and the chain is, for every method, the chain it
    was; listing it again gives the same entries. *)
Theorem snapshot_is_independent c h (ls : list (list Heap.loc)) :
  Heap.items c ∈ dom (Heap.arrays h) →
  (Heap.getItems c h).1 ≠ Heap.items c ∧
  Heap.read_array (Heap.getItems c h).2 (Heap.getItems c h).1 =
    Heap.read_array h (Heap.items c) ∧
  Heap.deref (Heap.getItems c h).2 <$>
    Heap.read_array (Heap.getItems c h).2 (Heap.getItems c h).1 =
    FallbackChain.getItems (Heap.view c h) ∧
  Heap.read_array
    (Heap.write_array_many (Heap.getItems c h).1 ls (Heap.getItems c h).2)
    (Heap.items c) = Heap.read_array h (Heap.items c) ∧
  Heap.view c
    (Heap.write_array_many (Heap.getItems c h).1 ls (Heap.getItems c h).2) =
    Heap.view c h ∧
  Heap.read_array
    (Heap.getItems c
       (Heap.write_array_many (Heap.getItems c h).1 ls (Heap.getItems c h).2)).2
    (Heap.getItems c
       (Heap.write_array_many (Heap.getItems c h).1 ls (Heap.getItems c h).2)).1 =
    Heap.read_array h (Heap.items c).
Proof.
  intros Hc.
  pose proof (alloc_array_fresh (Heap.read_array h (Heap.items c)) h _ Hc) as Hne.
  change (Heap.alloc_array (Heap.read_array h (Heap.items c)) h)
    with (Heap.getItems c h) in Hne.
  destruct (write_array_many_other (Heap.getItems c h).1 (Heap.items c) ls
              (Heap.getItems c h).2 Hne) as [Hread Hobj].
  assert (Hsnap : Heap.read_array (Heap.getItems c h).2 (Heap.items c) =
                  Heap.read_array h (Heap.items c)).
  { unfold Heap.getItems, Heap.alloc_array. simpl. by apply read_write_array_ne. }
  rewrite Hsnap in Hread.
  set (h2 := Heap.write_array_many (Heap.getItems c h).1 ls (Heap.getItems c h).2) in *.
  split_and!.
  - done.
  - unfold Heap.getItems, Heap.alloc_array. simpl. apply read_write_array_eq.
  - unfold Heap.getItems, Heap.alloc_array. simpl. by rewrite read_write_array_eq.
  - done.
  - unfold Heap.view, Heap.providers. rewrite Hread. f_equal.
    apply list_fmap_ext. intros _ o _. unfold Heap.deref. by rewrite Hobj.
  - unfold Heap.getItems, Heap.alloc_array. simpl.
    by rewrite read_write_array_eq.
Qed.

End HeapProperties.

Lemma snapshot_is_independent_witness :
  (Heap.getItems HeapExamples.chain0 HeapExamples.h0).1 ≠ 0%nat ∧
  Heap.view HeapExamples.chain0
    (Heap.write_array_many (Heap.getItems HeapExamples.chain0 HeapExamples.h0).1
       [[11%nat; 10%nat]; []] (Heap.getItems HeapExamples.chain0 HeapExamples.h0).2) =
    Heap.view HeapExamples.chain0 HeapExamples.h0.
Proof.
  destruct (snapshot_is_independent HeapExamples.chain0 HeapExamples.h0
              [[11%nat; 10%nat]; []]) as (Hne & _ & _ & _ & Hview & _).
  - apply elem_of_dom. by exists [10%nat; 11%nat].
  - by split.
Defined.

(** The copy is of the array, not of the providers: the snapshot holds the
    references that the chain holds, so an assignment to a field of a
    provider reached through the snapshot is seen by the chain. *)
Lemma snapshot_shares_the_providers :
  Heap.read_array (Heap.getItems HeapExamples.chain0 HeapExamples.h0).2
    (Heap.getItems HeapExamples.chain0 HeapExamples.h0).1 = [10%nat; 11%nat] ∧
  priority <$> Heap.providers HeapExamples.chain0
    (Heap.write_object 10%nat (mkChainable "B" 7 None None)
       (Heap.getItems HeapExamples.chain0 HeapExamples.h0).2) = [7; 2].
Proof. split; reflexivity. Qed.

(** ** The scenarios of the specification, run *)

(** [A(priority 2, succeeds)] and [B(priority 1, fails)] on a chain whose
    ['error'] event has a listener: [B] is called first, the fallback names
    [B] and [A], and the result of [A] is returned. *)
Example scenario_fallback :
  FallbackChain.execute Examples.chain_BA "request" =
    ([(0%nat, CallExecute);
      (0%nat, Emit (EvError "B" (mkError "boom")));
      (0%nat, CallOnFallback NoOp "B" "A");
      (0%nat, Emit (EvFallback "B" "A"));
      (1%nat, CallExecute);
      (1%nat, Emit (EvSuccess "A" 1))],
     Normal "a").
Proof. reflexivity. Qed.

(** The same providers on a chain made with [continueOnError: false], with
    a listener: the fallback from [B] to [A] is announced, and the call
    fails with the error of [B] without trying [A]. *)
Example scenario_stop_on_error :
  FallbackChain.execute Examples.chain_BA_stop "request" =
    ([(0%nat, CallExecute);
      (0%nat, Emit (EvError "B" (mkError "boom")));
      (0%nat, CallOnFallback NoOp "B" "A");
      (0%nat, Emit (EvFallback "B" "A"))],
     Throws (ThrowError (mkError "boom"))).
Proof. reflexivity. Qed.

(** A single provider whose probe answers [false]: one ['skipped']
    notification, then the generic error. *)
Example scenario_unhealthy :
  FallbackChain.execute Scenarios.chain_C "request" =
    ([(0%nat, CallHealthCheck); (0%nat, Emit (EvSkipped "C" "unhealthy"))],
     Throws (ThrowError exhausted)).
Proof. reflexivity. Qed.

(** A provider that needs 500 ms in a chain that gives 100 ms and whose
    ['error'] event has a listener. *)
Example scenario_timeout :
  FallbackChain.execute Examples.chain_D "request" =
    ([(0%nat, CallExecute); (0%nat, Emit (EvError "D" timed_out))],
     Throws (ThrowError timed_out)).
Proof. reflexivity. Qed.

(** The same provider in a chain made with [timeoutPerItem: 0] is given
    30000 ms, and succeeds. *)
Example scenario_zero_timeout :
  FallbackChain.execute Scenarios.chain_D_zero "request" =
    ([(0%nat, CallExecute); (0%nat, Emit (EvSuccess "D" 0))], Normal "d").
Proof. reflexivity. Qed.

(** Priorities 2, 1, 1, 1, 3 in the order of the [add] calls: the three
    providers of priority 1 keep that order. *)
Example scenario_listing :
  name <$> FallbackChain.getItems Scenarios.chain_all = ["B"; "C"; "D"; "A"; "H"] ∧
  name <$> FallbackChain.getItems (FallbackChain.remove Scenarios.chain_all "C") =
    ["B"; "D"; "A"; "H"].
Proof. split; reflexivity. Qed.

(** * Further properties of the code *)

(** ** [executeWithTimeout] *)

Section Race.
Context {Req Res : Type}.
Implicit Types (c : FallbackChain.t Req Res) (item : Chainable Req Res).

(** X1.  The race always settles, and no later than the timer: an attempt
    never outlasts [timeoutPerItem] (as [setTimeout] reads it). *)
Theorem attempt_settles_by_the_timer c fn request :
  ∃ t s,
    FallbackChain.executeWithTimeout c fn request = SettlesAt t s ∧
    t ≤ setTimeout (FallbackChain.timeoutPerItem (FallbackChain.options c)).
Proof.
  unfold FallbackChain.executeWithTimeout. simpl.
  destruct (fn request) as [u s|]; simpl.
  - case_bool_decide; eexists _, _; split; try done; lia.
  - eexists _, _. split; [done|lia].
Qed.

(** X2.  The race is lost with [x] in two ways only: the operation rejected
    with [x] no later than the timer, or the timer fired first, and then
    [x] is the "Timeout" error and the instant is the timer's. *)
Theorem attempt_rejection_origin c fn request t x :
  FallbackChain.executeWithTimeout c fn request = SettlesAt t (Rejected x) ↔
  (fn request = SettlesAt t (Rejected x) ∧
   t ≤ setTimeout (FallbackChain.timeoutPerItem (FallbackChain.options c))) ∨
  (t = setTimeout (FallbackChain.timeoutPerItem (FallbackChain.options c)) ∧
   x = ThrowError (mkError "Timeout") ∧
   (fn request = Pending ∨
    ∃ u s, fn request = SettlesAt u s ∧
           setTimeout (FallbackChain.timeoutPerItem (FallbackChain.options c)) < u)).
Proof.
  unfold FallbackChain.executeWithTimeout. simpl.
  destruct (fn request) as [u s|]; simpl.
  - case_bool_decide as Hu; split.
    + intros [= -> ->]. by left.
    + intros [[[= -> ->] _]|(-> & -> & [[=]|(u' & s' & [= -> ->] & Hlt)])]; [done|lia].
    + intros [= <- <-]. right. split_and!; [done..|]. right. exists u, s. split; [done|lia].
    + intros [[[= -> ->] Hle]|(-> & -> & _)]; [lia|done].
  - split.
    + intros [= <- <-]. right. split_and!; [done..|]. by left.
    + intros [[[=] _]|(-> & -> & _)]. done.
Qed.

(** X3.  The race is won with a value only by the operation: it is
    fulfilled with [v] at [t] exactly when the operation is, and [t] is
    no later than the instant of the timer. *)
Theorem attempt_value_comes_from_the_operation c fn request t v :
  FallbackChain.executeWithTimeout c fn request = SettlesAt t (Fulfilled v) ↔
  fn request = SettlesAt t (Fulfilled v) ∧
  t ≤ setTimeout (FallbackChain.timeoutPerItem (FallbackChain.options c)).
Proof. apply executeWithTimeout_fulfilled. Qed.

End Race.

(** ** The notifications of [execute] *)

Section Notifications.
Context {Req Res : Type}.
Implicit Types (c : FallbackChain.t Req Res) (item : Chainable Req Res).

Lemma logged_index_has_provider c request k a :
  (k, a) ∈ (FallbackChain.execute c request).1 →
  is_Some (FallbackChain.items c !! k).
Proof.
  intros Hin%loop_log_range. apply lookup_lt_is_Some. lia.
Qed.

(** Every iteration that logged something went one of the six ways. *)
Lemma execute_iteration_log c request k a item :
  FallbackChain.items c !! k = Some item →
  (k, a) ∈ (FallbackChain.execute c request).1 →
  iteration_log c request k item
    (FallbackChain.execute c request).1 (FallbackChain.execute c request).2.
Proof.
  intros Hk Hin. destruct (execute_inversion _ _ _ _ _ Hk Hin) as (e & Hat & Hstop).
  destruct (classify c request item) as [t x H|H|t H|Hh He|fn t v Hh He Hr|fn t x Hh He Hr].
  - rewrite (body_probe_rejects _ _ _ _ _ _ _ H) in Hat, Hstop.
    apply tag_inj in Hat. destruct (Hstop (Throws x) eq_refl).
    by eapply LogProbeRejects.
  - rewrite (body_probe_pending _ _ _ _ _ H) in Hat, Hstop.
    apply tag_inj in Hat. destruct (Hstop Never eq_refl).
    by eapply LogProbePending.
  - rewrite (body_unhealthy _ _ _ _ _ _ H) in Hat.
    apply tag_inj in Hat. by eapply LogUnhealthy.
  - rewrite (body_inert _ _ _ _ _ Hh He) in Hat.
    apply tag_inj in Hat. by eapply LogInert.
  - rewrite (body_success _ _ _ _ _ _ _ _ Hh He Hr) in Hat, Hstop.
    apply tag_inj in Hat. destruct (Hstop (Normal v) eq_refl).
    by eapply LogSucceeds.
  - rewrite (body_failure _ _ _ _ _ _ _ _ Hh He Hr) in Hat, Hstop.
    cbn [fst snd] in Hat, Hstop. apply tag_inj in Hat.
    eapply LogFails; [done..| |].
    + intros Hl. rewrite bool_decide_eq_true_2 in Hstop by done. by apply Hstop.
    + intros Hl Hc. rewrite bool_decide_eq_false_2, Hc in Hstop by done.
      by apply Hstop.
Qed.

Lemma elem_of_fallback_actions c k item a :
  a ∈ fallback_actions c k item →
  ∃ nextItem,
    FallbackChain.items c !! S k = Some nextItem ∧
    (a = CallOnFallback (FallbackChain.onFallback (FallbackChain.options c))
                        (name item) (name nextItem) ∨
     a = Emit (EvFallback (name item) (name nextItem))).
Proof.
  unfold fallback_actions.
  destruct (FallbackChain.items c !! S k) as [nextItem|]; [|by intros ?%elem_of_nil].
  intros [->|[->|[]%elem_of_nil]%elem_of_cons]%elem_of_cons; eauto.
Qed.

(** Closes a goal from [H : a ∈ at_index k log] once [at_index k log] has
    been rewritten to the actions of an iteration that cannot hold [a]. *)
Ltac absent_from_iteration H :=
  repeat first
    [ case_bool_decide
    | apply elem_of_app in H as [H|H]
    | apply elem_of_cons in H as [H|H]
    | apply elem_of_probe_actions in H
    | apply elem_of_fallback_actions in H as (? & _ & [H|H])
    | apply elem_of_nil in H; destruct H
    | discriminate H ].

(** X4.  A ['success'] notification carries the name of the provider whose
    operation was fulfilled and its index in the list; the call returns
    that provider's value, and nothing is logged for a later provider. *)
Theorem success_notification_ends_the_call c request k n idx :
  (k, Emit (EvSuccess n idx)) ∈ (FallbackChain.execute c request).1 →
  idx = k ∧
  ∃ item fn t v,
    FallbackChain.items c !! k = Some item ∧ n = name item ∧
    execute item = Some fn ∧
    FallbackChain.executeWithTimeout c fn request = SettlesAt t (Fulfilled v) ∧
    (FallbackChain.execute c request).2 = Normal v ∧
    ∀ j b, (j, b) ∈ (FallbackChain.execute c request).1 → (j ≤ k)%nat.
Proof.
  intros Hin. destruct (logged_index_has_provider _ _ _ _ Hin) as [item Hk].
  pose proof (proj2 (elem_of_at_index _ _ _) Hin) as Ha.
  destruct (execute_iteration_log _ _ _ _ _ Hk Hin)
    as [t x H Hat|H Hat|t H Hat|Hh He Hat|fn t v Hh He Hr Hat Hc Hlast|fn t x Hh He Hr Hat];
    rewrite Hat in Ha; try (by absent_from_iteration Ha).
  apply elem_of_app in Ha as [Ha%elem_of_probe_actions|Ha]; [done|].
  apply elem_of_cons in Ha as [Ha|Ha]; [done|].
  apply list_elem_of_singleton in Ha. injection Ha as -> ->.
  split; [done|]. by exists item, fn, t, v.
Qed.

(** X5.  An ['error'] notification is made only for a provider whose
    operation was called and lost the race; it carries that provider's name
    and the error it failed with, as an [Error]. *)
Theorem error_notification_reports_a_failed_call c request k n e :
  (k, Emit (EvError n e)) ∈ (FallbackChain.execute c request).1 →
  ∃ item fn t x,
    FallbackChain.items c !! k = Some item ∧ n = name item ∧
    execute item = Some fn ∧
    FallbackChain.executeWithTimeout c fn request = SettlesAt t (Rejected x) ∧
    e = asError x ∧
    (k, CallExecute) ∈ (FallbackChain.execute c request).1.
Proof.
  intros Hin. destruct (logged_index_has_provider _ _ _ _ Hin) as [item Hk].
  pose proof (proj2 (elem_of_at_index _ _ _) Hin) as Ha.
  destruct (execute_iteration_log _ _ _ _ _ Hk Hin)
    as [t x H Hat|H Hat|t H Hat|Hh He Hat|fn t v Hh He Hr Hat Hc Hlast|fn t x Hh He Hr Hat];
    pose proof Hat as Hat'; rewrite Hat in Ha; try (by absent_from_iteration Ha).
  exists item, fn, t, x.
  assert (Hcall : (k, CallExecute) ∈ (FallbackChain.execute c request).1).
  { apply elem_of_at_index. rewrite Hat'. apply elem_of_app. right. by left. }
  apply elem_of_app in Ha as [Ha%elem_of_probe_actions|Ha]; [done|].
  apply elem_of_cons in Ha as [Ha|Ha]; [done|].
  apply elem_of_cons in Ha as [Ha|Ha].
  - by injection Ha as -> ->.
  - by absent_from_iteration Ha.
Qed.

(** X6.  A ['fallback'] notification names the provider whose operation
    just failed and the provider that stands right after it in the list;
    it comes with an ['error'] notification for the first and a call of
    the chain's [onFallback] with the same two names. *)
Theorem fallback_notification_names_neighbours c request k from to :
  (k, Emit (EvFallback from to)) ∈ (FallbackChain.execute c request).1 →
  ∃ item nextItem e,
    FallbackChain.items c !! k = Some item ∧
    FallbackChain.items c !! S k = Some nextItem ∧
    from = name item ∧ to = name nextItem ∧
    (k, Emit (EvError from e)) ∈ (FallbackChain.execute c request).1 ∧
    (k, CallOnFallback (FallbackChain.onFallback (FallbackChain.options c)) from to)
      ∈ (FallbackChain.execute c request).1.
Proof.
  intros Hin. destruct (logged_index_has_provider _ _ _ _ Hin) as [item Hk].
  pose proof (proj2 (elem_of_at_index _ _ _) Hin) as Ha.
  destruct (execute_iteration_log _ _ _ _ _ Hk Hin)
    as [t x H Hat|H Hat|t H Hat|Hh He Hat|fn t v Hh He Hr Hat Hc Hlast|fn t x Hh He Hr Hat];
    pose proof Hat as Hat'; rewrite Hat in Ha; try (by absent_from_iteration Ha).
  apply elem_of_app in Ha as [Ha%elem_of_probe_actions|Ha]; [done|].
  apply elem_of_cons in Ha as [Ha|Ha]; [done|].
  apply elem_of_cons in Ha as [Ha|Ha]; [done|].
  destruct (bool_decide (FallbackChain.listenerCount c "error" = 0%nat));
    [by apply elem_of_nil in Ha|].
  unfold fallback_actions in Ha, Hat'.
  destruct (FallbackChain.items c !! S k) as [nextItem|] eqn:Hnext;
    [|by apply elem_of_nil in Ha].
  apply elem_of_cons in Ha as [Ha|Ha]; [done|].
  apply list_elem_of_singleton in Ha. injection Ha as -> ->.
  exists item, nextItem, (asError x). split_and!; [done..| |];
    apply elem_of_at_index; rewrite Hat'; apply elem_of_app; right.
  - right. by left.
  - right. right. by left.
Qed.

(** X7.  A ['skipped'] notification is made only for a provider whose probe
    answered [false]; its reason is "unhealthy" and the provider's
    operation is not called in that call. *)
Theorem skipped_notification_reports_a_false_probe c request k n reason :
  (k, Emit (EvSkipped n reason)) ∈ (FallbackChain.execute c request).1 →
  reason = "unhealthy" ∧
  ∃ item t,
    FallbackChain.items c !! k = Some item ∧ n = name item ∧
    healthCheck item = Some (SettlesAt t (Fulfilled false)) ∧
    (k, CallExecute) ∉ (FallbackChain.execute c request).1.
Proof.
  intros Hin. destruct (logged_index_has_provider _ _ _ _ Hin) as [item Hk].
  pose proof (proj2 (elem_of_at_index _ _ _) Hin) as Ha.
  destruct (execute_iteration_log _ _ _ _ _ Hk Hin)
    as [t x H Hat|H Hat|t H Hat|Hh He Hat|fn t v Hh He Hr Hat Hc Hlast|fn t x Hh He Hr Hat];
    pose proof Hat as Hat'; rewrite Hat in Ha; try (by absent_from_iteration Ha).
  apply elem_of_cons in Ha as [Ha|Ha]; [done|].
  apply list_elem_of_singleton in Ha. injection Ha as -> ->.
  split; [done|]. exists item, t. split_and!; [done..|].
  intros Hcall%elem_of_at_index. rewrite Hat' in Hcall.
  by absent_from_iteration Hcall.
Qed.

End Notifications.

Lemma success_notification_ends_the_call_witness :
  1%nat = 1%nat ∧
  ∃ item fn t v,
    FallbackChain.items Examples.chain_BA !! 1%nat = Some item ∧ "A" = name item ∧
    execute item = Some fn ∧
    FallbackChain.executeWithTimeout Examples.chain_BA fn "request" =
      SettlesAt t (Fulfilled v) ∧
    (FallbackChain.execute Examples.chain_BA "request").2 = Normal v ∧
    ∀ j b, (j, b) ∈ (FallbackChain.execute Examples.chain_BA "request").1 → (j ≤ 1)%nat.
Proof.
  apply (success_notification_ends_the_call Examples.chain_BA "request" 1 "A" 1).
  vm_compute. repeat constructor.
Defined.

Lemma error_notification_reports_a_failed_call_witness :
  ∃ item fn t x,
    FallbackChain.items Examples.chain_BA !! 0%nat = Some item ∧ "B" = name item ∧
    execute item = Some fn ∧
    FallbackChain.executeWithTimeout Examples.chain_BA fn "request" =
      SettlesAt t (Rejected x) ∧
    mkError "boom" = asError x ∧
    (0%nat, CallExecute) ∈ (FallbackChain.execute Examples.chain_BA "request").1.
Proof.
  apply (error_notification_reports_a_failed_call Examples.chain_BA "request" 0 "B").
  vm_compute. repeat constructor.
Defined.

Lemma fallback_notification_names_neighbours_witness :
  ∃ item nextItem e,
    FallbackChain.items Examples.chain_BA !! 0%nat = Some item ∧
    FallbackChain.items Examples.chain_BA !! 1%nat = Some nextItem ∧
    "B" = name item ∧ "A" = name nextItem ∧
    (0%nat, Emit (EvError "B" e)) ∈ (FallbackChain.execute Examples.chain_BA "request").1 ∧
    (0%nat, CallOnFallback
              (FallbackChain.onFallback (FallbackChain.options Examples.chain_BA))
              "B" "A")
      ∈ (FallbackChain.execute Examples.chain_BA "request").1.
Proof.
  apply (fallback_notification_names_neighbours Examples.chain_BA "request" 0 "B" "A").
  vm_compute. repeat constructor.
Defined.

Lemma skipped_notification_reports_a_false_probe_witness :
  "unhealthy" = "unhealthy" ∧
  ∃ item t,
    FallbackChain.items Examples.chain_CA !! 0%nat = Some item ∧ "C" = name item ∧
    healthCheck item = Some (SettlesAt t (Fulfilled false)) ∧
    (0%nat, CallExecute) ∉ (FallbackChain.execute Examples.chain_CA "request").1.
Proof.
  apply (skipped_notification_reports_a_false_probe Examples.chain_CA "request" 0 "C").
  vm_compute. repeat constructor.
Defined.

(** ** How a call ends *)

Section Ending.
Context {Req Res : Type}.
Implicit Types (c : FallbackChain.t Req Res) (item : Chainable Req Res).

(** The loop ends in an iteration that stops it, or runs off the list and
    throws an [Error]. *)
Lemma loop_end c request rest i lastError :
  (∃ k item e,
     rest !! k = Some item ∧
     stops (FallbackChain.body c request (i + k) item e).2 =
       Some (FallbackChain.loop c request i rest lastError).2 ∧
     ∀ en, en ∈ (FallbackChain.body c request (i + k) item e).1 →
           en ∈ (FallbackChain.loop c request i rest lastError).1) ∨
  (∃ e, (FallbackChain.loop c request i rest lastError).2 = Throws (ThrowError e)).
Proof.
  revert i lastError. induction rest as [|item rest IH]; intros i lastError.
  { right. simpl. eauto. }
  destruct (stops_or_continues (FallbackChain.body c request i item lastError).2)
    as [[comp Hs]|[e He]].
  - left. exists 0%nat, item, lastError.
    rewrite Nat.add_0_r, (loop_stop _ _ _ _ _ _ _ Hs). by simpl.
  - rewrite (loop_continue _ _ _ _ _ _ _ He). simpl.
    destruct (IH (S i) e) as [(k & item' & e' & Hk & Hs & Hin)|?]; [left|by right].
    exists (S k), item', e'. replace (i + S k)%nat with (S i + k)%nat by lia.
    split_and!; [done..|]. intros en Hen. apply elem_of_app. right. by apply Hin.
Qed.

(** X8.  [execute] stays pending exactly when it called a probe that never
    settles: the timer bounds every operation, and nothing bounds a
    probe. *)
Theorem execute_is_pending_iff_a_probe_is c request :
  (FallbackChain.execute c request).2 = Never ↔
  ∃ i item,
    FallbackChain.items c !! i = Some item ∧
    healthCheck item = Some Pending ∧
    (i, CallHealthCheck) ∈ (FallbackChain.execute c request).1.
Proof.
  split.
  - unfold FallbackChain.execute.
    destruct (loop_end c request (FallbackChain.items c) 0 None)
      as [(k & item & e & Hk & Hs & Hin)|[e He]]; [|by rewrite He].
    intros Hn. rewrite Hn in Hs. simpl in Hs, Hin.
    destruct (classify c request item) as [t x H|H|t H|Hh He|fn t v Hh He Hr|fn t x Hh He Hr].
    + by rewrite (body_probe_rejects _ _ _ _ _ _ _ H) in Hs.
    + exists k, item. split_and!; [done..|]. apply Hin.
      rewrite (body_probe_pending _ _ _ _ _ H). by left.
    + by rewrite (body_unhealthy _ _ _ _ _ _ H) in Hs.
    + by rewrite (body_inert _ _ _ _ _ Hh He) in Hs.
    + by rewrite (body_success _ _ _ _ _ _ _ _ Hh He Hr) in Hs.
    + rewrite (body_failure _ _ _ _ _ _ _ _ Hh He Hr) in Hs. cbn [snd] in Hs.
      destruct (bool_decide _); [done|].
      by destruct (FallbackChain.continueOnError _).
  - intros (i & item & Hk & Hp & Hin).
    destruct (execute_iteration_log _ _ _ _ _ Hk Hin)
      as [t x H|H Hat Hc|t H|Hh He|fn t v Hh He|fn t x Hh He]; try done;
      try congruence.
    all: destruct Hh as [Hh|[u Hh]]; congruence.
Qed.

(** X9.  What [execute] fails with is an [Error] object, unless it is what
    a probe that it called rejected with: the failures of operations are
    wrapped, the rejections of probes are passed on as they are. *)
Theorem execute_throws_an_Error_or_a_probe_rejection c request x :
  (FallbackChain.execute c request).2 = Throws x →
  (∃ e, x = ThrowError e) ∨
  ∃ i item t,
    FallbackChain.items c !! i = Some item ∧
    healthCheck item = Some (SettlesAt t (Rejected x)) ∧
    (i, CallHealthCheck) ∈ (FallbackChain.execute c request).1.
Proof.
  unfold FallbackChain.execute.
  destruct (loop_end c request (FallbackChain.items c) 0 None)
    as [(k & item & e & Hk & Hs & Hin)|[e He]].
  - intros Hx. rewrite Hx in Hs. simpl in Hs, Hin.
    destruct (classify c request item) as [t y H|H|t H|Hh He|fn t v Hh He Hr|fn t y Hh He Hr].
    + rewrite (body_probe_rejects _ _ _ _ _ _ _ H) in Hs, Hin.
      injection Hs as ->. right. exists k, item, t. split_and!; [done..|].
      apply Hin. by left.
    + by rewrite (body_probe_pending _ _ _ _ _ H) in Hs.
    + by rewrite (body_unhealthy _ _ _ _ _ _ H) in Hs.
    + by rewrite (body_inert _ _ _ _ _ Hh He) in Hs.
    + by rewrite (body_success _ _ _ _ _ _ _ _ Hh He Hr) in Hs.
    + rewrite (body_failure _ _ _ _ _ _ _ _ Hh He Hr) in Hs. cbn [snd] in Hs.
      destruct (bool_decide _); [injection Hs as <-; left; eauto|].
      destruct (FallbackChain.continueOnError _); [done|].
      injection Hs as <-. left. eauto.
  - rewrite He. intros [= <-]. left. eauto.
Qed.

End Ending.

Lemma execute_throws_an_Error_or_a_probe_rejection_witness :
  (∃ e, ThrowOther "down" = ThrowError e) ∨
  ∃ i item t,
    FallbackChain.items Examples.chain_H !! i = Some item ∧
    healthCheck item = Some (SettlesAt t (Rejected (ThrowOther "down"))) ∧
    (i, CallHealthCheck) ∈ (FallbackChain.execute Examples.chain_H "request").1.
Proof.
  apply (execute_throws_an_Error_or_a_probe_rejection Examples.chain_H "request").
  reflexivity.
Defined.

(** ** The order of the iterations *)

Section Order.
Context {Req Res : Type}.
Implicit Types (c : FallbackChain.t Req Res) (item : Chainable Req Res).

Lemma fst_tag i l : (tag i l).*1 = replicate (List.length l) i.
Proof. unfold tag. induction l as [|a l IH]; [done|]. simpl. by f_equal. Qed.

Lemma replicate_sorted (n i : nat) : StronglySorted le (replicate n i).
Proof.
  induction n as [|n IH]; simpl; constructor; [done|].
  apply Forall_forall. by intros j [-> _]%elem_of_replicate.
Qed.

Lemma loop_log_sorted c request rest i lastError :
  StronglySorted le (FallbackChain.loop c request i rest lastError).1.*1.
Proof.
  revert i lastError. induction rest as [|item rest IH]; intros i lastError.
  { constructor. }
  destruct (body_log_tagged c request i item lastError) as [l Hl].
  pose proof (replicate_sorted (List.length l) i) as Hrep.
  destruct (stops_or_continues (FallbackChain.body c request i item lastError).2)
    as [[comp Hs]|[e He]].
  - rewrite (loop_stop _ _ _ _ _ _ _ Hs). simpl. by rewrite Hl, fst_tag.
  - rewrite (loop_continue _ _ _ _ _ _ _ He). simpl.
    rewrite Hl, fmap_app, fst_tag. apply StronglySorted_app. split_and!; [|done..].
    intros j1 j2 [-> _]%elem_of_replicate [[j b] [-> Hin]]%list_elem_of_fmap.
    apply loop_log_range in Hin. simpl. lia.
Qed.

(** X10.  The log of a call runs through the indices of the list in
    ascending order, and no index has more than one call of the probe or
    more than one call of the operation: within a call an entry of the
    list is visited once, after every entry that stands before it. *)
Theorem providers_are_visited_in_order_once c request :
  StronglySorted le (FallbackChain.execute c request).1.*1 ∧
  ∀ k,
    (List.length (filter (λ a, a = CallHealthCheck)
       (at_index k (FallbackChain.execute c request).1)) ≤ 1)%nat ∧
    (List.length (filter (λ a, a = CallExecute)
       (at_index k (FallbackChain.execute c request).1)) ≤ 1)%nat.
Proof.
  split; [apply loop_log_sorted|]. intros k.
  destruct (at_index k (FallbackChain.execute c request).1) as [|a l] eqn:Hat.
  { simpl. lia. }
  assert (Hin : (k, a) ∈ (FallbackChain.execute c request).1).
  { apply elem_of_at_index. rewrite Hat. by left. }
  rewrite <-Hat. clear Hat.
  destruct (logged_index_has_provider _ _ _ _ Hin) as [item Hk].
  destruct (execute_iteration_log _ _ _ _ _ Hk Hin)
    as [t x H Hat|H Hat|t H Hat|Hh He Hat|fn t v Hh He Hr Hat Hc Hlast|fn t x Hh He Hr Hat];
    rewrite Hat; unfold probe_actions, fallback_actions;
    destruct (healthCheck item);
    try destruct (bool_decide (FallbackChain.listenerCount c "error" = 0%nat));
    try destruct (FallbackChain.items c !! S k);
    simpl; lia.
Qed.

End Order.

(** ** Providers that the loop leaves behind *)

Section Prefix.
Context {Req Res : Type}.
Implicit Types (c : FallbackChain.t Req Res) (item : Chainable Req Res).

(** X11.  The provider that decides a call can be read off the list: when
    every provider before the one at [i] is left behind (its probe answers
    [false], or it has no operation, or its operation is not fulfilled in
    time in a chain that continues on error and has a listener for the
    ['error'] event), the call reaches [i].  It returns the value of [i] if
    its operation is fulfilled and fails with what its probe rejected with
    if that rejects.  If its operation fails, the call fails with the
    emitter's error on a chain without a listener for ['error'], and with
    the provider's error on a chain that has one and stops on error. *)
Theorem first_provider_that_stands_decides c request i item :
  FallbackChain.items c !! i = Some item →
  (∀ j item', (j < i)%nat → FallbackChain.items c !! j = Some item' →
              moves_on c request item' = true) →
  (∀ fn t v,
     healthy item → execute item = Some fn →
     FallbackChain.executeWithTimeout c fn request = SettlesAt t (Fulfilled v) →
     (FallbackChain.execute c request).2 = Normal v ∧
     (i, CallExecute) ∈ (FallbackChain.execute c request).1) ∧
  (∀ t x,
     healthCheck item = Some (SettlesAt t (Rejected x)) →
     (FallbackChain.execute c request).2 = Throws x) ∧
  (∀ fn t x,
     FallbackChain.listenerCount c "error" ≠ 0%nat →
     FallbackChain.continueOnError (FallbackChain.options c) = false →
     healthy item → execute item = Some fn →
     FallbackChain.executeWithTimeout c fn request = SettlesAt t (Rejected x) →
     (FallbackChain.execute c request).2 = Throws (ThrowError (asError x)) ∧
     (i, CallExecute) ∈ (FallbackChain.execute c request).1) ∧
  (∀ fn t x,
     FallbackChain.listenerCount c "error" = 0%nat →
     healthy item → execute item = Some fn →
     FallbackChain.executeWithTimeout c fn request = SettlesAt t (Rejected x) →
     (FallbackChain.execute c request).2 =
       Throws (ThrowError (ERR_UNHANDLED_ERROR (name item) (asError x))) ∧
     (i, CallExecute) ∈ (FallbackChain.execute c request).1).
Proof.
  intros Hk Hpre.
  destruct (execute_reaches c request i item Hk Hpre) as (w & e & -> & _).
  cbn [fst snd].
  split_and!.
  - intros fn t v Hh He Hr.
    rewrite (loop_stop _ _ _ _ _ _ (Normal v))
      by (by rewrite (body_success _ _ _ _ _ _ _ _ Hh He Hr)).
    rewrite (body_success _ _ _ _ _ _ _ _ Hh He Hr). simpl. split; [done|].
    apply elem_of_app. right. apply elem_of_tag. split; [done|].
    apply elem_of_app. right. by left.
  - intros t x Hp.
    rewrite (loop_stop _ _ _ _ _ _ (Throws x))
      by (by rewrite (body_probe_rejects _ _ _ _ _ _ _ Hp)).
    done.
  - intros fn t x Hl Hc Hh He Hr.
    pose proof (body_failure_heard c request i item e fn t x Hl Hh He Hr) as Hb.
    rewrite Hc in Hb.
    rewrite (loop_stop _ _ _ _ _ _ (Throws (ThrowError (asError x))))
      by (by rewrite Hb).
    rewrite Hb. cbn [fst snd]. split; [done|].
    apply elem_of_app. right. apply elem_of_tag. split; [done|].
    apply elem_of_app. right. by left.
  - intros fn t x Hl Hh He Hr.
    pose proof (body_failure_unheard c request i item e fn t x Hl Hh He Hr) as Hb.
    rewrite (loop_stop _ _ _ _ _ _
               (Throws (ThrowError (ERR_UNHANDLED_ERROR (name item) (asError x)))))
      by (by rewrite Hb).
    rewrite Hb. cbn [fst snd]. split; [done|].
    apply elem_of_app. right. apply elem_of_tag. split; [done|].
    apply elem_of_app. right. by left.
Qed.

End Prefix.

Lemma first_provider_that_stands_decides_witness :
  (FallbackChain.execute Examples.chain_BA "request").2 = Normal "a" ∧
  (1%nat, CallExecute) ∈ (FallbackChain.execute Examples.chain_BA "request").1.
Proof.
  refine (proj1 (first_provider_that_stands_decides Examples.chain_BA "request" 1
                   Examples.A _ _)
            (λ _, SettlesAt 5 (Fulfilled "a")) 5 "a" _ _ _);
    [reflexivity| |by left|reflexivity|reflexivity].
  intros j item' Hj Hitem.
  change (FallbackChain.items Examples.chain_BA)
    with [Examples.B; Examples.A] in Hitem.
  destruct j as [|j]; [|lia]. simplify_eq/=. reflexivity.
Defined.

Section PassedOver.
Context {Req Res : Type}.
Implicit Types (c : FallbackChain.t Req Res) (item : Chainable Req Res).

(** How an iteration completes depends on the chain through its options
    and its listeners only, not through its list or the index. *)
Lemma body_completion_same c c' request i i' item lastError :
  FallbackChain.options c = FallbackChain.options c' →
  FallbackChain.listeners c = FallbackChain.listeners c' →
  (FallbackChain.body c request i item lastError).2 =
  (FallbackChain.body c' request i' item lastError).2.
Proof.
  intros Ho Hl.
  assert (Hcount : FallbackChain.listenerCount c "error" =
                   FallbackChain.listenerCount c' "error")
    by (unfold FallbackChain.listenerCount; by rewrite Hl).
  assert (Hr' : ∀ fn, FallbackChain.executeWithTimeout c' fn request =
                      FallbackChain.executeWithTimeout c fn request).
  { intros fn. unfold FallbackChain.executeWithTimeout. by rewrite Ho. }
  destruct (classify c request item) as [t x H|H|t H|Hh He|fn t v Hh He Hr|fn t x Hh He Hr].
  - by rewrite !(body_probe_rejects _ _ _ _ _ _ _ H).
  - by rewrite !(body_probe_pending _ _ _ _ _ H).
  - by rewrite !(body_unhealthy _ _ _ _ _ _ H).
  - by rewrite !(body_inert _ _ _ _ _ Hh He).
  - rewrite (body_success c _ _ _ _ _ _ _ Hh He Hr).
    rewrite <-Hr' in Hr. by rewrite (body_success c' _ _ _ _ _ _ _ Hh He Hr).
  - rewrite (body_failure c _ _ _ _ _ _ _ Hh He Hr).
    rewrite <-Hr' in Hr. rewrite (body_failure c' _ _ _ _ _ _ _ Hh He Hr).
    cbn [snd]. by rewrite Ho, Hcount.
Qed.

Lemma loop_without_passed_over c c' request rest i i' lastError :
  FallbackChain.options c = FallbackChain.options c' →
  FallbackChain.listeners c = FallbackChain.listeners c' →
  (FallbackChain.loop c request i rest lastError).2 =
  (FallbackChain.loop c' request i'
     (filter (λ item, passed_over item = false) rest) lastError).2.
Proof.
  intros Ho Hl. revert i i' lastError.
  induction rest as [|item rest IH]; intros i i' lastError; [done|].
  destruct (passed_over item) eqn:Hp.
  - rewrite filter_cons_False by (by rewrite Hp).
    destruct (passed_over_body c request i item lastError Hp) as (l & _ & Hb).
    rewrite (loop_continue _ _ _ _ _ _ lastError) by (by rewrite Hb).
    apply IH.
  - rewrite filter_cons_True by done.
    pose proof (body_completion_same c c' request i i' item lastError Ho Hl) as Hsame.
    destruct (stops_or_continues (FallbackChain.body c request i item lastError).2)
      as [[comp Hs]|[e He]].
    + rewrite (loop_stop _ _ _ _ _ _ _ Hs).
      rewrite Hsame in Hs. by rewrite (loop_stop _ _ _ _ _ _ _ Hs).
    + rewrite (loop_continue _ _ _ _ _ _ _ He).
      rewrite Hsame in He. rewrite (loop_continue _ _ _ _ _ _ _ He).
      apply IH.
Qed.

(** X12.  Providers that are unhealthy or have no operation change the
    notifications of a call, never its outcome: [execute] completes as it
    does on the chain without them. *)
Theorem passed_over_providers_do_not_change_the_outcome c request :
  (FallbackChain.execute c request).2 =
  (FallbackChain.execute
     (FallbackChain.mk
        (filter (λ item, passed_over item = false) (FallbackChain.items c))
        (FallbackChain.options c)
        (FallbackChain.listeners c))
     request).2.
Proof. unfold FallbackChain.execute. simpl. by apply loop_without_passed_over. Qed.

End PassedOver.

(** ** [getFirstAvailable] *)

Section FirstAvailable.
Context {Req Res : Type}.
Implicit Types (c : FallbackChain.t Req Res) (item : Chainable Req Res).
Implicit Types (l : list (Chainable Req Res)).

Lemma unhealthy_before_cons item l k :
  unhealthy item → unhealthy_before k l → unhealthy_before (S k) (item :: l).
Proof.
  intros Hitem Hl [|j] item' Hj Hlook; simpl in Hlook.
  - by injection Hlook as <-.
  - apply (Hl j); [lia|done].
Qed.

Lemma unhealthy_before_tail item l k :
  unhealthy_before (S k) (item :: l) → unhealthy item ∧ unhealthy_before k l.
Proof.
  intros H. split.
  - apply (H 0%nat); [lia|done].
  - intros j item' Hj Hlook. apply (H (S j)); [lia|done].
Qed.

Lemma firstAvailable_unhealthy i item l t :
  healthCheck item = Some (SettlesAt t (Fulfilled false)) →
  FallbackChain.firstAvailable i (item :: l) =
    ((i, CallHealthCheck) :: (FallbackChain.firstAvailable (S i) l).1,
     (FallbackChain.firstAvailable (S i) l).2).
Proof.
  intros H. simpl. rewrite H. simpl.
  by destruct (FallbackChain.firstAvailable (S i) l).
Qed.

(** How the search ends, by what it returns or fails with. *)
Lemma firstAvailable_end i l :
  match (FallbackChain.firstAvailable i l).2 with
  | Normal (Some item) =>
      ∃ k, l !! k = Some item ∧ healthy item ∧ unhealthy_before k l
  | Normal None => Forall unhealthy l
  | Throws x =>
      ∃ k item t, l !! k = Some item ∧
                  healthCheck item = Some (SettlesAt t (Rejected x)) ∧
                  unhealthy_before k l
  | Never =>
      ∃ k item, l !! k = Some item ∧ healthCheck item = Some Pending ∧
                unhealthy_before k l
  end.
Proof.
  assert (Hnone : ∀ l', unhealthy_before 0 l').
  { intros l' j item' Hj. lia. }
  revert i. induction l as [|item l IH]; intros i; [by constructor|].
  destruct (healthCheck item) as [[t [[|]|x]|]|] eqn:Hp.
  - simpl. rewrite Hp. simpl. exists 0%nat. split_and!; [done| |done].
    right. by exists t.
  - rewrite (firstAvailable_unhealthy _ _ _ _ Hp). simpl.
    assert (Hu : unhealthy item) by (by exists t).
    specialize (IH (S i)).
    destruct (FallbackChain.firstAvailable (S i) l).2 as [[item'|]|x|].
    + destruct IH as (k & Hk & Hh & Hb). exists (S k).
      split_and!; [done..|]. by apply unhealthy_before_cons.
    + by constructor.
    + destruct IH as (k & item' & u & Hk & Hh & Hb). exists (S k), item', u.
      split_and!; [done..|]. by apply unhealthy_before_cons.
    + destruct IH as (k & item' & Hk & Hh & Hb). exists (S k), item'.
      split_and!; [done..|]. by apply unhealthy_before_cons.
  - simpl. rewrite Hp. simpl. exists 0%nat, item, t. by split_and!.
  - simpl. rewrite Hp. simpl. exists 0%nat, item. by split_and!.
  - simpl. rewrite Hp. simpl. exists 0%nat. split_and!; [done| |done]. by left.
Qed.

(** The search goes past unhealthy providers and ends at the first
    provider that is not. *)
Lemma firstAvailable_at i l k item :
  l !! k = Some item → unhealthy_before k l →
  (FallbackChain.firstAvailable i l).2 =
    match healthCheck item with
    | None | Some (SettlesAt _ (Fulfilled true)) => Normal (Some item)
    | Some (SettlesAt _ (Fulfilled false)) =>
        (FallbackChain.firstAvailable (i + S k) (drop (S k) l)).2
    | Some (SettlesAt _ (Rejected x)) => Throws x
    | Some Pending => Never
    end.
Proof.
  revert i k. induction l as [|item' l IH]; intros i k Hk Hb; [done|].
  destruct k as [|k].
  - injection Hk as ->. rewrite Nat.add_1_r.
    destruct (healthCheck item) as [[t [[|]|x]|]|] eqn:Hp;
      try (simpl; by rewrite Hp).
    by rewrite (firstAvailable_unhealthy _ _ _ _ Hp).
  - apply unhealthy_before_tail in Hb as [[t Hu] Hb].
    rewrite (firstAvailable_unhealthy _ _ _ _ Hu). simpl in Hk |- *.
    rewrite (IH (S i) k Hk Hb).
    by replace (S i + S k)%nat with (i + S (S k))%nat by lia.
Qed.

(** X13.  [getFirstAvailable] returns a provider exactly when that
    provider stands at an index where it has no probe or a probe that
    answers [true], and the probe of every provider before it answers
    [false]. *)
Theorem getFirstAvailable_returns_the_first_healthy c item :
  (FallbackChain.getFirstAvailable c).2 = Normal (Some item) ↔
  ∃ i, FallbackChain.items c !! i = Some item ∧ healthy item ∧
       unhealthy_before i (FallbackChain.items c).
Proof.
  unfold FallbackChain.getFirstAvailable. split.
  - intros Hr. pose proof (firstAvailable_end 0 (FallbackChain.items c)) as H.
    by rewrite Hr in H.
  - intros (i & Hi & Hh & Hb). rewrite (firstAvailable_at _ _ _ _ Hi Hb).
    by destruct Hh as [->|[t ->]].
Qed.

(** X14.  [getFirstAvailable] returns [null] exactly when the probe of
    every provider answers [false]; in particular on an empty chain. *)
Theorem getFirstAvailable_returns_null_iff_all_unhealthy c :
  (FallbackChain.getFirstAvailable c).2 = Normal None ↔
  Forall unhealthy (FallbackChain.items c).
Proof.
  unfold FallbackChain.getFirstAvailable. split.
  - intros Hr. pose proof (firstAvailable_end 0 (FallbackChain.items c)) as H.
    by rewrite Hr in H.
  - intros Hall. generalize 0%nat.
    induction Hall as [|item l [t Hu] _ IH]; intros i; [done|].
    rewrite (firstAvailable_unhealthy _ _ _ _ Hu). apply IH.
Qed.

(** X15.  [getFirstAvailable] does not absorb a probe that rejects either:
    it fails with [x] exactly when the first provider whose probe does
    not answer [false] has a probe that rejects with [x]. *)
Theorem getFirstAvailable_fails_iff_a_probe_rejects c x :
  (FallbackChain.getFirstAvailable c).2 = Throws x ↔
  ∃ i item t,
    FallbackChain.items c !! i = Some item ∧
    healthCheck item = Some (SettlesAt t (Rejected x)) ∧
    unhealthy_before i (FallbackChain.items c).
Proof.
  unfold FallbackChain.getFirstAvailable. split.
  - intros Hr. pose proof (firstAvailable_end 0 (FallbackChain.items c)) as H.
    by rewrite Hr in H.
  - intros (i & item & t & Hi & Hp & Hb).
    by rewrite (firstAvailable_at _ _ _ _ Hi Hb), Hp.
Qed.

Lemma firstAvailable_log i l k a :
  (k, a) ∈ (FallbackChain.firstAvailable i l).1 →
  a = CallHealthCheck ∧
  ∃ item, l !! (k - i)%nat = Some item ∧ (i ≤ k)%nat ∧ is_Some (healthCheck item).
Proof.
  revert i. induction l as [|item l IH]; intros i; [by intros ?%elem_of_nil|].
  destruct (healthCheck item) as [[t [[|]|x]|]|] eqn:Hp.
  2: { rewrite (firstAvailable_unhealthy _ _ _ _ Hp). simpl.
       intros [[= -> ->]|Hin]%elem_of_cons.
       - split; [done|]. exists item. rewrite Nat.sub_diag, Hp. eauto.
       - destruct (IH _ Hin) as (-> & item' & Hk & Hle & Hs). split; [done|].
         exists item'. replace (k - i)%nat with (S (k - S i)) by lia.
         split_and!; [done|lia|done]. }
  all: simpl; rewrite Hp; simpl; try (by intros ?%elem_of_nil).
  all: intros [= -> ->]%list_elem_of_singleton; split; [done|];
       exists item; rewrite Nat.sub_diag, Hp; eauto.
Qed.

(** X16.  [getFirstAvailable] calls probes and nothing else: it calls no
    operation and makes no notification, and each probe it calls is the
    probe of a provider of the chain. *)
Theorem getFirstAvailable_only_calls_probes c k a :
  (k, a) ∈ (FallbackChain.getFirstAvailable c).1 →
  a = CallHealthCheck ∧
  ∃ item, FallbackChain.items c !! k = Some item ∧ is_Some (healthCheck item).
Proof.
  unfold FallbackChain.getFirstAvailable.
  intros (-> & item & Hk & _ & Hs)%firstAvailable_log. split; [done|].
  exists item. by rewrite Nat.sub_0_r in Hk.
Qed.

End FirstAvailable.

Lemma getFirstAvailable_only_calls_probes_witness :
  CallHealthCheck = CallHealthCheck ∧
  ∃ item, FallbackChain.items Examples.chain_CA !! 0%nat = Some item ∧
          is_Some (healthCheck item).
Proof.
  apply (getFirstAvailable_only_calls_probes Examples.chain_CA 0 CallHealthCheck).
  vm_compute. repeat constructor.
Defined.

(** ** Registration: [add], [createFallbackChain] *)

Section StableSort.
Context {A : Type} (key : A → Z).

Local Abbreviation cmp := (λ a b : A, key a - key b).
Local Abbreviation le := (λ a b : A, key a ≤ key b).

(** A list sorted by key is determined by the order it gives to the
    elements of each key. *)
Lemma sorted_stable_unique l1 l2 :
  StronglySorted le l1 → StronglySorted le l2 →
  (∀ p, filter (λ a, key a = p) l1 = filter (λ a, key a = p) l2) →
  l1 = l2.
Proof.
  intros Hs1. revert l2. induction Hs1 as [|x l1 Hs1 IH Hx]; intros l2 Hs2 Hf.
  - destruct l2 as [|y l2]; [done|].
    specialize (Hf (key y)). by rewrite filter_cons_True in Hf.
  - destruct Hs2 as [|y l2 Hs2 Hy].
    { specialize (Hf (key x)). by rewrite filter_cons_True in Hf. }
    assert (Hxy : key x = key y).
    { assert (x ∈ y :: l2) as [->|Hin]%elem_of_cons.
      { eapply (proj1 (list_elem_of_filter (λ a, key a = key x) _ _)).
        rewrite <-Hf, filter_cons_True by done. by left. }
      { done. }
      assert (y ∈ x :: l1) as [->|Hin']%elem_of_cons.
      { eapply (proj1 (list_elem_of_filter (λ a, key a = key y) _ _)).
        rewrite Hf, filter_cons_True by done. by left. }
      { done. }
      eapply Forall_forall in Hx; [|done]. eapply Forall_forall in Hy; [|done].
      simpl in *. lia. }
    pose proof (Hf (key x)) as Hhead.
    rewrite filter_cons_True, (filter_cons_True _ y) in Hhead by done.
    injection Hhead as -> Htail. f_equal. apply IH; [done|].
    intros p. destruct (decide (key y = p)) as [<-|Hne]; [done|].
    specialize (Hf p). by rewrite !filter_cons_False in Hf.
Qed.

Lemma Array_sort_sorted_id l : StronglySorted le l → Array_sort cmp l = l.
Proof.
  intros Hs. apply sorted_stable_unique; [apply Array_sort_sorted|done|].
  intros p. apply filter_Array_sort.
Qed.

Lemma Array_sort_app_l l1 l2 :
  Array_sort cmp (Array_sort cmp l1 ++ l2) = Array_sort cmp (l1 ++ l2).
Proof.
  apply sorted_stable_unique; [apply Array_sort_sorted..|].
  intros p. by rewrite !filter_Array_sort, !filter_app, filter_Array_sort.
Qed.

Lemma filter_none (P : A → Prop) `{!∀ a, Decision (P a)} l :
  (∀ a, a ∈ l → ¬ P a) → filter P l = [].
Proof.
  induction l as [|x l IH]; intros Hno; [done|].
  rewrite filter_cons_False by (apply Hno; by left).
  apply IH. intros a Ha. apply Hno. by right.
Qed.

(** Sorting a sorted list with one more element at its end puts that
    element after the elements whose key is not greater and before the
    others. *)
Lemma Array_sort_snoc_sorted l x :
  StronglySorted le l →
  Array_sort cmp (l ++ [x]) =
    filter (λ a, key a ≤ key x) l ++ x :: filter (λ a, key x < key a) l.
Proof.
  intros Hs. apply sorted_stable_unique; [apply Array_sort_sorted| |].
  - apply StronglySorted_app. split_and!.
    + intros a b [Ha _]%list_elem_of_filter
        [->|[Hb _]%list_elem_of_filter]%elem_of_cons; simpl in *; lia.
    + by apply StronglySorted_filter.
    + constructor; [by apply StronglySorted_filter|].
      apply Forall_forall. intros b [Hb _]%list_elem_of_filter. simpl. lia.
  - intros p. rewrite filter_Array_sort, !filter_app, !(filter_cons _ x), filter_nil.
    destruct (Z.lt_trichotomy p (key x)) as [Hlt|[->|Hgt]].
    + rewrite (filter_none (λ a, key a = p) (filter (λ a, key x < key a) l))
        by (intros a [Ha _]%list_elem_of_filter; lia).
      repeat case_decide; try lia.
      rewrite !app_nil_r. symmetry. apply list_filter_filter_l. intros a. lia.
    + rewrite (filter_none (λ a, key a = key x) (filter (λ a, key x < key a) l))
        by (intros a [Ha _]%list_elem_of_filter; lia).
      repeat case_decide; try done.
      f_equal. symmetry. apply list_filter_filter_l. intros a. lia.
    + rewrite (filter_none (λ a, key a = p) (filter (λ a, key a ≤ key x) l))
        by (intros a [Ha _]%list_elem_of_filter; lia).
      repeat case_decide; try lia.
      rewrite app_nil_r. simpl. symmetry. apply list_filter_filter_l. intros a. lia.
Qed.

(** A sorted list is its elements of key at most [q] followed by the
    others. *)
Lemma sorted_split l q :
  StronglySorted le l →
  filter (λ a, key a ≤ q) l ++ filter (λ a, q < key a) l = l.
Proof.
  induction 1 as [|x l Hs IH Hx]; [done|].
  rewrite !(filter_cons _ x). destruct (decide (key x ≤ q)) as [Hle|Hgt].
  - rewrite decide_False by lia. simpl. by rewrite IH.
  - rewrite decide_True by lia.
    rewrite (filter_none (λ a, key a ≤ q)).
    + simpl. f_equal.
      rewrite <-IH at 2. by rewrite (filter_none (λ a, key a ≤ q)) by
        (intros a Ha; eapply Forall_forall in Hx; [|done]; simpl in *; lia).
    + intros a Ha. eapply Forall_forall in Hx; [|done]. simpl in *. lia.
Qed.

End StableSort.

(** ** [Array.prototype.find] *)

Section Find.
Context {A : Type}.
Implicit Types (P Q : A → Prop) (l : list A).

Local Abbreviation find P l := (snd <$> list_find P l).

Lemma find_cons P `{!∀ a, Decision (P a)} x l :
  find P (x :: l) = if decide (P x) then Some x else find P l.
Proof.
  simpl. destruct (decide (P x)); [done|].
  by destruct (list_find P l) as [[i y]|].
Qed.

Lemma find_Some P `{!∀ a, Decision (P a)} l x :
  find P l = Some x ↔
  ∃ i, l !! i = Some x ∧ P x ∧ ∀ j y, l !! j = Some y → (j < i)%nat → ¬ P y.
Proof.
  split.
  - destruct (list_find P l) as [[i y]|] eqn:Hf; [|done].
    intros [= <-]. exists i. by apply (proj1 (list_find_Some P l i y)).
  - intros (i & Hi). apply (proj2 (list_find_Some P l i x)) in Hi. by rewrite Hi.
Qed.

Lemma find_None P `{!∀ a, Decision (P a)} l :
  find P l = None ↔ ∀ a, a ∈ l → ¬ P a.
Proof.
  split.
  - intros Hf a Ha Hp. destruct (list_find P l) as [[i y]|] eqn:E; [done|].
    apply (proj1 (list_find_None P l)) in E.
    eapply Forall_forall in E; [|done]. by apply E.
  - intros Hno. destruct (list_find P l) as [[i y]|] eqn:E; [|done].
    apply (proj1 (list_find_Some P l i y)) in E as (Hl & Hp & _).
    exfalso. eapply Hno; [by eapply list_elem_of_lookup_2|done].
Qed.

Lemma find_ext P Q `{!∀ a, Decision (P a), !∀ a, Decision (Q a)} l :
  (∀ a, a ∈ l → (P a ↔ Q a)) → find P l = find Q l.
Proof.
  induction l as [|x l IH]; intros Hext; [done|].
  rewrite !find_cons, IH by (intros a Ha; apply Hext; by right).
  assert (P x ↔ Q x) by (apply Hext; by left).
  repeat case_decide; tauto || done.
Qed.

Lemma find_filter P Q `{!∀ a, Decision (P a), !∀ a, Decision (Q a)} l :
  find P (filter Q l) = find (λ a, P a ∧ Q a) l.
Proof.
  induction l as [|x l IH]; [done|].
  rewrite filter_cons, (find_cons (λ a, P a ∧ Q a)).
  destruct (decide (Q x)).
  - rewrite find_cons, IH. repeat case_decide; tauto || done.
  - rewrite IH. by rewrite decide_False by tauto.
Qed.

Lemma find_app P `{!∀ a, Decision (P a)} l1 l2 :
  find P (l1 ++ l2) =
    match find P l1 with
    | Some x => Some x
    | None => find P l2
    end.
Proof.
  induction l1 as [|x l1 IH]; [done|].
  change ((x :: l1) ++ l2) with (x :: (l1 ++ l2)).
  rewrite !find_cons, IH. by case_decide.
Qed.

End Find.

Lemma sorted_lookup_le {A : Type} (key : A → Z) (l : list A) i j x y :
  StronglySorted (λ a b, key a ≤ key b) l →
  l !! i = Some x → l !! j = Some y → (i ≤ j)%nat → key x ≤ key y.
Proof.
  intros Hs. revert i j. induction Hs as [|z l Hs IH Hz]; intros i j Hi Hj Hij; [done|].
  destruct i as [|i], j as [|j]; simpl in *; try lia.
  - simplify_eq. lia.
  - simplify_eq. eapply Forall_forall in Hz; [done|].
    by eapply list_elem_of_lookup_2.
  - eapply IH; [done..|lia].
Qed.

(** ** [add], [remove], [get], [length], [createFallbackChain] *)

Section Registry.
Context {Req Res : Type}.
Implicit Types (c : FallbackChain.t Req Res) (item : Chainable Req Res).

(** X18.  On a sorted list, [add] puts the new entry after every entry
    whose priority is not greater than its own and before every other
    one, and leaves the entries that were there in their order. *)
Theorem add_puts_the_entry_after_its_equals c item :
  StronglySorted ascending (FallbackChain.items c) →
  FallbackChain.items (FallbackChain.add c item) =
    filter (λ a, priority a ≤ priority item) (FallbackChain.items c) ++
    item :: filter (λ a, priority item < priority a) (FallbackChain.items c) ∧
  filter (λ a, priority a ≤ priority item) (FallbackChain.items c) ++
    filter (λ a, priority item < priority a) (FallbackChain.items c) =
    FallbackChain.items c.
Proof.
  intros Hs. split.
  - by apply (Array_sort_snoc_sorted priority).
  - by apply (sorted_split priority).
Qed.

Lemma foldl_add_sorted c its :
  StronglySorted ascending (FallbackChain.items c) →
  FallbackChain.items (foldl FallbackChain.add c its) =
    Array_sort (λ a b, priority a - priority b) (FallbackChain.items c ++ its) ∧
  FallbackChain.options (foldl FallbackChain.add c its) = FallbackChain.options c.
Proof.
  revert c. induction its as [|x its IH]; intros c Hs.
  - simpl. rewrite app_nil_r. split; [|done].
    symmetry. by apply (Array_sort_sorted_id priority).
  - simpl. destruct (IH (FallbackChain.add c x)) as [-> ->].
    { apply (Array_sort_sorted priority). }
    split; [|done]. simpl.
    by rewrite (Array_sort_app_l priority), <-app_assoc.
Qed.

(** X19.  [createFallbackChain] gives the chain whose list is the stable
    sort of the providers it was given, with the options the constructor
    makes: adding one by one and sorting each time comes to sorting
    once. *)
Theorem createFallbackChain_sorts_once
    (its : list (Chainable Req Res)) (o : FallbackChainOptions.t) :
  FallbackChain.items (createFallbackChain its o) =
    Array_sort (λ a b, priority a - priority b) its ∧
  FallbackChain.options (createFallbackChain its o) =
    FallbackChain.options (@FallbackChain.constructor Req Res o).
Proof.
  unfold createFallbackChain. apply foldl_add_sorted. constructor.
Qed.

Lemma built_chain_sorted (o : FallbackChainOptions.t) (ms : list (mutation Req Res)) :
  StronglySorted ascending
    (FallbackChain.items (foldl mutate (FallbackChain.constructor o) ms)).
Proof.
  refine (proj1 (listing_of_foldl (FallbackChain.constructor o) [] ms _)).
  split_and!; [constructor|done..].
Qed.

(** X20.  On a chain made by [add] and [remove] calls, [get] returns an
    entry of the name asked for whose priority is the lowest among the
    entries of that name; it returns [undefined] exactly when no entry has
    the name. *)
Theorem get_returns_the_lowest_priority_match
    (o : FallbackChainOptions.t) (ms : list (mutation Req Res)) (n : string) :
  (∀ item,
     FallbackChain.get (foldl mutate (FallbackChain.constructor o) ms) n = Some item →
     name item = n ∧
     item ∈ FallbackChain.items (foldl mutate (FallbackChain.constructor o) ms) ∧
     ∀ other,
       other ∈ FallbackChain.items (foldl mutate (FallbackChain.constructor o) ms) →
       name other = n → priority item ≤ priority other) ∧
  (FallbackChain.get (foldl mutate (FallbackChain.constructor o) ms) n = None ↔
   ∀ item,
     item ∈ FallbackChain.items (foldl mutate (FallbackChain.constructor o) ms) →
     name item ≠ n).
Proof.
  pose proof (built_chain_sorted o ms) as Hs.
  set (c := foldl mutate (FallbackChain.constructor o) ms) in *.
  unfold FallbackChain.get. split.
  - intros item (i & Hi & Hn & Hfirst)%find_Some. split_and!; [done| |].
    + by eapply list_elem_of_lookup_2.
    + intros other [j Hj]%list_elem_of_lookup Hname.
      destruct (decide (j < i)%nat) as [Hlt|Hge].
      * by destruct (Hfirst j other Hj Hlt).
      * eapply (sorted_lookup_le priority); [exact Hs|done..|lia].
  - apply find_None.
Qed.

(** X21.  After [remove(n)], [get(n)] returns [undefined], and [get] of
    any other name returns what it returned before. *)
Theorem get_after_remove c (n m : string) :
  FallbackChain.get (FallbackChain.remove c n) m =
    if decide (m = n) then None else FallbackChain.get c m.
Proof.
  unfold FallbackChain.get, FallbackChain.remove. simpl.
  rewrite (find_filter (λ item, name item = m) (λ item, name item ≠ n)).
  case_decide as Hmn.
  - subst m. apply find_None. intros a _ [Ha Hb]. done.
  - apply find_ext. intros a _. split; [by intros [? _]|]. intros <-. done.
Qed.

(** X22.  On a sorted list, [get] after [add]: for a name other than the
    new entry's, what it returned before; for the new entry's name, the
    entry of that name that was there if there was one of a priority not
    greater, and the new entry otherwise.  An entry added under a name
    that is taken hides the old one only with a strictly lower
    priority. *)
Theorem get_after_add c item (m : string) :
  StronglySorted ascending (FallbackChain.items c) →
  FallbackChain.get (FallbackChain.add c item) m =
    if decide (name item = m) then
      match FallbackChain.get c m with
      | Some old =>
          if decide (priority old ≤ priority item) then Some old else Some item
      | None => Some item
      end
    else FallbackChain.get c m.
Proof.
  intros Hs. unfold FallbackChain.get.
  change (FallbackChain.items (FallbackChain.add c item))
    with (Array_sort (λ a b, priority a - priority b) (FallbackChain.items c ++ [item])).
  rewrite (Array_sort_snoc_sorted priority) by done.
  rewrite find_app, find_cons.
  rewrite (find_filter (λ a, name a = m) (λ a, priority a ≤ priority item)).
  rewrite (find_filter (λ a, name a = m) (λ a, priority item < priority a)).
  destruct (snd <$> list_find (λ a, name a = m) (FallbackChain.items c))
    as [old|] eqn:Hold.
  - apply find_Some in Hold as (i & Hi & Hn & Hfirst).
    assert (Hmin : ∀ a, a ∈ FallbackChain.items c → name a = m →
                        priority old ≤ priority a).
    { intros a [j Hj]%list_elem_of_lookup Ha.
      destruct (decide (j < i)%nat) as [Hlt|Hge].
      - by destruct (Hfirst j a Hj Hlt).
      - eapply (sorted_lookup_le priority); [exact Hs|done..|lia]. }
    destruct (decide (priority old ≤ priority item)) as [Hle|Hgt].
    + rewrite (proj2 (find_Some (λ a, name a = m ∧ priority a ≤ priority item) _ old)).
      * by case_decide.
      * exists i. split; [done|]. split; [done|]. intros j y Hj Hlt [Hy _].
        by destruct (Hfirst j y Hj Hlt).
    + rewrite (proj2 (find_None (λ a, name a = m ∧ priority a ≤ priority item) _)).
      * case_decide; [done|].
        apply find_Some. exists i. split; [done|]. split.
        -- split; [done|lia].
        -- intros j y Hj Hlt [Hy _]. by destruct (Hfirst j y Hj Hlt).
      * intros a Ha [Hna Hpa]. specialize (Hmin a Ha Hna). lia.
  - pose proof (proj1 (find_None _ _) Hold) as Hno.
    rewrite (proj2 (find_None (λ a, name a = m ∧ priority a ≤ priority item) _))
      by (intros a Ha [Hna _]; by apply (Hno a)).
    case_decide; [done|].
    apply find_None. intros a Ha [Hna _]. by apply (Hno a).
Qed.

(** X23.  [remove(n)] takes out the entries named [n] and nothing else:
    the other entries stay, in their order; the count goes down by the
    number of entries named [n]; and the list is unchanged exactly when no
    entry has the name. *)
Theorem remove_takes_out_the_matches c (n : string) :
  (∀ item,
     item ∈ FallbackChain.items (FallbackChain.remove c n) ↔
     item ∈ FallbackChain.items c ∧ name item ≠ n) ∧
  FallbackChain.items (FallbackChain.remove c n) `sublist_of` FallbackChain.items c ∧
  (FallbackChain.length (FallbackChain.remove c n) +
     List.length (filter (λ item, name item = n) (FallbackChain.items c)) =
   FallbackChain.length c)%nat ∧
  (FallbackChain.items (FallbackChain.remove c n) = FallbackChain.items c ↔
   ∀ item, item ∈ FallbackChain.items c → name item ≠ n).
Proof.
  unfold FallbackChain.length, FallbackChain.remove. simpl.
  generalize (FallbackChain.items c). intros l. split_and!.
  - intros item. rewrite list_elem_of_filter. tauto.
  - apply sublist_filter.
  - induction l as [|x l IH]; [done|].
    rewrite !(filter_cons _ x). destruct (decide (name x = n)).
    + rewrite decide_False by tauto. simpl. lia.
    + rewrite decide_True by done. simpl. lia.
  - split.
    + intros Heq item Hin. rewrite <-Heq in Hin.
      by apply list_elem_of_filter in Hin as [? _].
    + intros Hno. induction l as [|x l IH]; [done|].
      rewrite filter_cons_True by (apply Hno; by left).
      f_equal. apply IH. intros item Hin. apply Hno. by right.
Qed.

(** X24.  [add] makes the chain one entry longer and keeps every entry:
    the new list is a rearrangement of the old entries and the new
    one. *)
Theorem add_keeps_every_entry c item :
  FallbackChain.length (FallbackChain.add c item) = S (FallbackChain.length c) ∧
  FallbackChain.items (FallbackChain.add c item) ≡ₚ item :: FallbackChain.items c.
Proof.
  assert (Hp : FallbackChain.items (FallbackChain.add c item) ≡ₚ
               item :: FallbackChain.items c).
  { simpl. rewrite (Array_sort_perm priority). by rewrite Permutation_app_comm. }
  split; [|done]. unfold FallbackChain.length. by rewrite Hp.
Qed.

End Registry.

(** Closes [StronglySorted ascending l] for a list [l] of given providers. *)
Ltac sorted_step :=
  lazymatch goal with
  | |- StronglySorted _ _ => constructor
  | |- Forall _ _ => constructor
  | |- ascending _ _ => by vm_compute
  end.

Ltac sorted_by_computation := repeat sorted_step.

Lemma add_puts_the_entry_after_its_equals_witness :
  name <$> FallbackChain.items
    (FallbackChain.add
       (createFallbackChain [Examples.A; Examples.B; Examples.C] Examples.defaults)
       Examples.D) = ["B"; "C"; "D"; "A"].
Proof.
  assert (Hs : StronglySorted ascending
    (FallbackChain.items
       (createFallbackChain [Examples.A; Examples.B; Examples.C] Examples.defaults))).
  { change (FallbackChain.items
       (createFallbackChain [Examples.A; Examples.B; Examples.C] Examples.defaults))
      with [Examples.B; Examples.C; Examples.A].
    sorted_by_computation. }
  rewrite (proj1 (add_puts_the_entry_after_its_equals _ Examples.D Hs)).
  by vm_compute.
Defined.

Lemma get_after_add_witness :
  FallbackChain.get
    (FallbackChain.add
       (createFallbackChain [Examples.A; Examples.B] Examples.defaults)
       (mkChainable "B" 1 None None)) "B" = Some Examples.B.
Proof.
  assert (Hs : StronglySorted ascending
    (FallbackChain.items
       (createFallbackChain [Examples.A; Examples.B] Examples.defaults))).
  { change (FallbackChain.items
       (createFallbackChain [Examples.A; Examples.B] Examples.defaults))
      with [Examples.B; Examples.A].
    sorted_by_computation. }
  rewrite (get_after_add _ (mkChainable "B" 1 None None) "B" Hs).
  by vm_compute.
Defined.

(** ** The heap: snapshots and registrations *)

Section HeapRegistrations.
Context {Req Res : Type}.
Implicit Types (h : Heap.heap Req Res) (c : Heap.chain).

Lemma dom_write_array a l h b :
  b ∈ dom (Heap.arrays h) → b ∈ dom (Heap.arrays (Heap.write_array a l h)).
Proof.
  unfold Heap.write_array. simpl. rewrite !elem_of_dom.
  destruct (decide (a = b)) as [->|Hne].
  - rewrite lookup_insert_eq. eauto.
  - by rewrite lookup_insert_ne.
Qed.

Lemma dom_write_array_self a l h : a ∈ dom (Heap.arrays (Heap.write_array a l h)).
Proof.
  unfold Heap.write_array. simpl. rewrite elem_of_dom, lookup_insert_eq. eauto.
Qed.

(** What a registration keeps of an array [s] that is not the chain's. *)
Lemma heap_mutate_other (st : Heap.chain * Heap.heap Req Res) m s :
  s ∈ dom (Heap.arrays st.2) →
  Heap.items st.1 ∈ dom (Heap.arrays st.2) →
  Heap.items st.1 ≠ s →
  s ∈ dom (Heap.arrays (heap_mutate st m).2) ∧
  Heap.items (heap_mutate st m).1 ∈ dom (Heap.arrays (heap_mutate st m).2) ∧
  Heap.items (heap_mutate st m).1 ≠ s ∧
  Heap.read_array (heap_mutate st m).2 s = Heap.read_array st.2 s.
Proof.
  destruct st as [c h]. simpl. intros Hs Hc Hne. destruct m as [o|n]; simpl.
  - unfold Heap.add. split_and!; [by apply dom_write_array..|done|].
    by apply read_write_array_ne.
  - unfold Heap.remove, Heap.alloc_array. simpl.
    assert (Hfresh : fresh (dom (Heap.arrays h)) ≠ s).
    { intros Heq. subst s. by apply (is_fresh (dom (Heap.arrays h))). }
    split_and!; [by apply dom_write_array|apply dom_write_array_self|done|].
    by apply read_write_array_ne.
Qed.

Lemma foldl_heap_mutate_other (ms : list heap_mutation)
    (st : Heap.chain * Heap.heap Req Res) s :
  s ∈ dom (Heap.arrays st.2) →
  Heap.items st.1 ∈ dom (Heap.arrays st.2) →
  Heap.items st.1 ≠ s →
  Heap.read_array (foldl heap_mutate st ms).2 s = Heap.read_array st.2 s.
Proof.
  revert st. induction ms as [|m ms IH]; intros st Hs Hc Hne; [done|].
  simpl. destruct (heap_mutate_other st m s Hs Hc Hne) as (Hs' & Hc' & Hne' & <-).
  by apply IH.
Qed.

(** X25.  A snapshot is not touched by what happens to the chain later:
    after any sequence of [add] and [remove] calls on the chain, the array
    that [getItems] returned holds what it held. *)
Theorem snapshot_survives_registrations c h (ms : list heap_mutation) :
  Heap.items c ∈ dom (Heap.arrays h) →
  Heap.read_array
    (foldl heap_mutate (c, (Heap.getItems c h).2) ms).2
    (Heap.getItems c h).1 =
  Heap.read_array h (Heap.items c).
Proof.
  intros Hc.
  pose proof (alloc_array_fresh (Heap.read_array h (Heap.items c)) h _ Hc) as Hne.
  rewrite foldl_heap_mutate_other.
  - unfold Heap.getItems, Heap.alloc_array. simpl. apply read_write_array_eq.
  - unfold Heap.getItems, Heap.alloc_array. simpl. apply dom_write_array_self.
  - unfold Heap.getItems, Heap.alloc_array. simpl. by apply dom_write_array.
  - simpl. intros Heq. by apply Hne.
Qed.

(** X26.  The snapshot is a copy of the array, not of the providers: its
    entries are the references that the chain holds, so an assignment to
    a provider object reached through the snapshot changes the provider
    that the chain holds at the same position. *)
Theorem snapshot_entries_are_shared c h (k : nat) (o : Heap.loc)
    (v : Chainable Req Res) :
  Heap.items c ∈ dom (Heap.arrays h) →
  Heap.read_array (Heap.getItems c h).2 (Heap.getItems c h).1 !! k = Some o →
  Heap.read_array h (Heap.items c) !! k = Some o ∧
  Heap.providers c (Heap.write_object o v (Heap.getItems c h).2) !! k = Some v.
Proof.
  intros Hc.
  pose proof (alloc_array_fresh (Heap.read_array h (Heap.items c)) h _ Hc) as Hne.
  unfold Heap.getItems, Heap.alloc_array in *. simpl in *.
  rewrite read_write_array_eq. intros Hk. split; [done|].
  unfold Heap.providers.
  change (Heap.read_array (Heap.write_object ?o ?v ?h') ?a)
    with (Heap.read_array h' a).
  rewrite read_write_array_ne by done.
  rewrite list_lookup_fmap, Hk. simpl. f_equal.
  unfold Heap.deref, Heap.write_object. simpl. by rewrite lookup_insert_eq.
Qed.

End HeapRegistrations.

Lemma snapshot_survives_registrations_witness :
  Heap.read_array
    (foldl heap_mutate
       (HeapExamples.chain0, (Heap.getItems HeapExamples.chain0 HeapExamples.h0).2)
       [HAdd 10%nat; HRemove "B"]).2
    (Heap.getItems HeapExamples.chain0 HeapExamples.h0).1 =
  Heap.read_array HeapExamples.h0 (Heap.items HeapExamples.chain0).
Proof.
  apply (snapshot_survives_registrations HeapExamples.chain0 HeapExamples.h0).
  apply elem_of_dom. by exists [10%nat; 11%nat].
Defined.

Lemma snapshot_entries_are_shared_witness :
  Heap.read_array HeapExamples.h0 (Heap.items HeapExamples.chain0) !! 0%nat =
    Some 10%nat ∧
  Heap.providers HeapExamples.chain0
    (Heap.write_object 10%nat (mkChainable "B" 7 None None)
       (Heap.getItems HeapExamples.chain0 HeapExamples.h0).2) !! 0%nat =
    Some (mkChainable "B" 7 None None).
Proof.
  apply (snapshot_entries_are_shared HeapExamples.chain0 HeapExamples.h0).
  - apply elem_of_dom. by exists [10%nat; 11%nat].
  - reflexivity.
Defined.

(** ** A chain with nothing to call *)

Section NothingToCall.
Context {Req Res : Type}.
Implicit Types (c : FallbackChain.t Req Res) (item : Chainable Req Res).

(** X27.  When every provider is unhealthy or has no operation, and so in
    particular on an empty chain, [execute] fails with the generic error
    "All items in fallback chain failed", calls no operation and makes no
    ['error'] notification. *)
Theorem nothing_to_call_fails_with_the_generic_error c request :
  (∀ item, item ∈ FallbackChain.items c → passed_over item = true) →
  (FallbackChain.execute c request).2 =
    Throws (ThrowError (mkError "All items in fallback chain failed")) ∧
  (∀ k, (k, CallExecute) ∉ (FallbackChain.execute c request).1) ∧
  (∀ k n e, (k, Emit (EvError n e)) ∉ (FallbackChain.execute c request).1).
Proof.
  intros Hall.
  assert (Hcall : ∀ k, (k, CallExecute) ∉ (FallbackChain.execute c request).1).
  { intros k Hin. destruct (logged_index_has_provider _ _ _ _ Hin) as [item Hk].
    assert (Hp : passed_over item = true)
      by (apply Hall; by eapply list_elem_of_lookup_2).
    pose proof (called_is_healthy _ _ _ _ Hk Hin) as Hh.
    pose proof (proj2 (elem_of_at_index _ _ _) Hin) as Ha.
    unfold passed_over in Hp.
    destruct (execute_iteration_log _ _ _ _ _ Hk Hin)
      as [t x H Hat|H Hat|t H Hat|Hh' He Hat|fn t v Hh' He Hr Hat|fn t x Hh' He Hr Hat].
    - destruct Hh as [Hh|[u Hh]]; congruence.
    - destruct Hh as [Hh|[u Hh]]; congruence.
    - destruct Hh as [Hh|[u Hh]]; congruence.
    - rewrite Hat in Ha. by apply elem_of_probe_actions in Ha.
    - rewrite He in Hp. by destruct Hh as [Hh|[u Hh]]; rewrite Hh in Hp.
    - rewrite He in Hp. by destruct Hh as [Hh|[u Hh]]; rewrite Hh in Hp. }
  split_and!; [|done|].
  - unfold FallbackChain.execute.
    rewrite (loop_without_passed_over c c request _ 0 0 None eq_refl eq_refl).
    rewrite (filter_none (λ item, passed_over item = false)); [done|].
    intros item Hin. rewrite (Hall item Hin). done.
  - intros k n e Hin. destruct (logged_index_has_provider _ _ _ _ Hin) as [item Hk].
    pose proof (proj2 (elem_of_at_index _ _ _) Hin) as Ha.
    destruct (execute_iteration_log _ _ _ _ _ Hk Hin)
      as [t x H Hat|H Hat|t H Hat|Hh' He Hat|fn t v Hh' He Hr Hat|fn t x Hh' He Hr Hat];
      pose proof Hat as Hat'; rewrite Hat in Ha.
    1-3: absent_from_list Ha.
    + by apply elem_of_probe_actions in Ha.
    + apply (Hcall k). apply elem_of_at_index. rewrite Hat'.
      apply elem_of_app. right. by left.
    + apply (Hcall k). apply elem_of_at_index. rewrite Hat'.
      apply elem_of_app. right. by left.
Qed.

End NothingToCall.

Lemma nothing_to_call_fails_with_the_generic_error_witness :
  (FallbackChain.execute Scenarios.chain_C "request").2 =
    Throws (ThrowError (mkError "All items in fallback chain failed")) ∧
  (∀ k, (k, CallExecute) ∉ (FallbackChain.execute Scenarios.chain_C "request").1) ∧
  (∀ k n e, (k, Emit (EvError n e)) ∉
            (FallbackChain.execute Scenarios.chain_C "request").1).
Proof.
  apply (nothing_to_call_fails_with_the_generic_error Scenarios.chain_C "request").
  intros item Hin.
  change (FallbackChain.items Scenarios.chain_C) with [Examples.C] in Hin.
  apply list_elem_of_singleton in Hin. by subst item.
Defined.
